(** * salt: the configuration loader and the logrus field builder

    A shallow embedding of [config/config.go] (the layered configuration
    loader built on a viper instance) and of [log/logrus.go]
    ([getFields]), with the properties of the specification stated and
    proved over it. *)

From Stdlib Require Import ZArith Ascii String.
From stdpp Require Import base strings gmap list fin_maps.

(** ** Go values held in an [interface{}] *)

(** The dynamic values the logging front end may receive in its variadic
    [args ...interface{}]. *)
Inductive iface : Type :=
  | IString (s : string)
  | IInt (z : Z)
  | IBool (b : bool)
  | INil.

#[global] Instance iface_eq_dec : EqDecision iface.
Proof. solve_decision. Defined.

(** * Package log *)
Module Log.

(** Outcome of a Go call that may panic. *)
Inductive outcome (A : Type) : Type :=
  | Returns (a : A)
  | Panics.
Arguments Returns {A} a.
Arguments Panics {A}.

(** The type assertion [x.(string)]. *)
Definition assert_string (x : iface) : outcome string :=
  match x with
  | IString s => Returns s
  | _ => Panics
  end.

(** The loop [for i := 1; i < len(args); i += 2] of [getFields]; [fuel]
    bounds the number of iterations. *)
Fixpoint getFields_loop (fuel : nat) (args : list iface) (i : nat)
    (fieldMap : gmap string iface) : outcome (gmap string iface) :=
  match fuel with
  | O => Returns fieldMap
  | S fuel' =>
      if decide (i < length args) then
        match args !! (i - 1) with
        | Some k =>
            match assert_string k with
            | Returns s => getFields_loop fuel' args (i + 2) (<[s := k]> fieldMap)
            | Panics => Panics
            end
        | None => Panics
        end
      else Returns fieldMap
  end.

(** [func (l Logrus) getFields(args ...interface{}) map[string]interface{}] *)
Definition getFields (args : list iface) : outcome (gmap string iface) :=
  let fieldMap : gmap string iface := ∅ in
  if decide (1 < length args ∧ length args `mod` 2 = 0) then
    getFields_loop (length args) args 1 fieldMap
  else Returns fieldMap.

(** The arguments at the even positions [0, 2, 4, ...]: the keys. *)
Fixpoint keys_of (args : list iface) : list iface :=
  match args with
  | k :: _ :: rest => k :: keys_of rest
  | _ => []
  end.

Definition is_string (x : iface) : Prop :=
  match x with IString _ => True | _ => False end.

#[global] Instance is_string_dec x : Decision (is_string x).
Proof. destruct x; simpl; apply _. Defined.

(** The field map the loop builds from a list of string keys. *)
Fixpoint bind_keys (ks : list iface) (m : gmap string iface) : gmap string iface :=
  match ks with
  | IString s :: rest => bind_keys rest (<[s := IString s]> m)
  | _ :: rest => bind_keys rest m
  | [] => m
  end.

End Log.

(** * Package config *)
Module Config.

(** ** Strings: [strings.ToUpper] and [strings.NewReplacer(old, new).Replace] *)

Definition upper_ascii (c : ascii) : ascii :=
  let n := nat_of_ascii c in
  if Nat.leb 97 n && Nat.leb n 122 then ascii_of_nat (n - 32) else c.

Fixpoint ToUpper (s : string) : string :=
  match s with
  | EmptyString => EmptyString
  | String c rest => String (upper_ascii c) (ToUpper rest)
  end.

(** Left-to-right replacement of the non-overlapping occurrences of a
    non-empty [old]; [skip] counts the characters of a match still to be
    dropped. *)
Fixpoint replace_from (skip : nat) (old new s : string) : string :=
  match s with
  | EmptyString => EmptyString
  | String c rest =>
      match skip with
      | S k => replace_from k old new rest
      | O =>
          if String.prefix old s
          then new +:+ replace_from (String.length old - 1) old new rest
          else String c (replace_from 0 old new rest)
      end
  end.

(** With an empty [old], Go inserts [new] before every character and at
    the end. *)
Fixpoint replace_empty (new s : string) : string :=
  match s with
  | EmptyString => new
  | String c rest => new +:+ String c (replace_empty new rest)
  end.

Definition Replace (old new s : string) : string :=
  if decide (old = "") then replace_empty new s else replace_from 0 old new s.

(** ** Schema instances *)

(** [reflect.Kind], restricted to the kinds a configuration meets. *)
Inductive Kind : Type :=
  | Invalid | Bool | Int | Str | Map | Slice | StructKind | Ptr.

#[global] Instance Kind_eq_dec : EqDecision Kind.
Proof. solve_decision. Defined.

(** The kinds of a leaf field. *)
Inductive basic : Type := BBool | BInt | BString | BMap | BSlice.

#[global] Instance basic_eq_dec : EqDecision basic.
Proof. solve_decision. Defined.

Definition kind_of_basic (b : basic) : Kind :=
  match b with
  | BBool => Bool | BInt => Int | BString => Str | BMap => Map | BSlice => Slice
  end.

(** An opaque configuration value: a scalar in its textual form, or the
    elements of a map or of a slice. *)
Inductive value : Type :=
  | Scalar (raw : string)
  | MapOf (entries : list (string * string))
  | SliceOf (elems : list string).

#[global] Instance value_eq_dec : EqDecision value.
Proof. solve_decision. Defined.

(** A leaf field: its kind, its [default:"..."] tag and the value it
    currently holds. *)
Record leaf : Type := MkLeaf {
  lkind : basic;
  ldefault : option value;
  lcur : value;
}.

(** A struct value: named fields, each a leaf or a nested struct. *)
Inductive node : Type :=
  | Leaf (lf : leaf)
  | Struct (fs : fields)
with fields : Type :=
  | FNil
  | FCons (name : string) (n : node) (rest : fields).

Scheme node_mut := Induction for node Sort Prop
with fields_mut := Induction for fields Sort Prop.

(** What the [config interface{}] parameter of [Load] may hold. *)
Inductive govalue : Type :=
  | GoStruct (fs : fields)
  | GoBasic (b : basic) (v : value)
  | GoNilPtr
  | GoPtr (target : govalue).

(** [None] is the nil interface. *)
Definition param : Type := option govalue.

(** [reflect.ValueOf(x).Kind()]; the zero [reflect.Value] has kind
    [Invalid]. *)
Definition Kind_of (x : param) : Kind :=
  match x with
  | None => Invalid
  | Some (GoStruct _) => StructKind
  | Some (GoBasic b _) => kind_of_basic b
  | Some GoNilPtr => Ptr
  | Some (GoPtr _) => Ptr
  end.

(** [reflect.Indirect]: the pointee of a pointer (the zero Value for a nil
    pointer), the value itself otherwise. *)
Definition Indirect (x : param) : param :=
  match x with
  | Some (GoPtr target) => Some target
  | Some GoNilPtr => None
  | _ => x
  end.

(** ** Errors *)

Inductive error : Type :=
  | InvalidTargetError (got : Kind) (behind_ptr : bool)
  | ConfigFileParseError (path : string)
  | SchemaDecodeError
  | EnvironmentBindError
  | DecodeError.

Inductive result (A : Type) : Type :=
  | Ok (a : A)
  | Err (e : error).
Arguments Ok {A} a.
Arguments Err {A} e.

(** [verifyParamIsPtrToStructElsePanic] *)
Definition verifyParamIsPtrToStructElsePanic (p : param) : option error :=
  let value := p in
  if decide (Kind_of value ≠ Ptr) then
    Some (InvalidTargetError (Kind_of value) false)
  else
    let value := Indirect value in
    if decide (Kind_of value ≠ StructKind) then
      Some (InvalidTargetError (Kind_of value) true)
    else None.

(** ** The key flattener *)

(** The generic form [mapstructure.Decode] gives a struct: a
    [map[string]interface{}] whose entries are nested maps (for nested
    structs) or plain Go values. *)
Inductive generic : Type :=
  | GValue (v : value)
  | GMap (entries : gentries)
with gentries : Type :=
  | GNil
  | GCons (key : string) (g : generic) (rest : gentries).

(** Modelled from the spec: [mapstructure.Decode] of a struct into a
    [map[string]interface{}] (third-party, not in the repository). Every
    field becomes an entry; a nested struct becomes a nested map, and any
    other field, map- and slice-typed ones included, is kept as the opaque
    value it holds. *)
Fixpoint decode_node (n : node) : generic :=
  match n with
  | Leaf lf => GValue (lcur lf)
  | Struct fs => GMap (decode_fields fs)
  end
with decode_fields (fs : fields) : gentries :=
  match fs with
  | FNil => GNil
  | FCons name n rest => GCons name (decode_node n) (decode_fields rest)
  end.

(** Modelled from the spec: [mapstructure.Decode(config, &structMap)]; the
    input must be decomposable into a key-value form, that is a struct or
    a pointer to one, otherwise [SchemaDecodeError]. *)
Definition mapstructure_Decode (config : param) : result gentries :=
  match config with
  | Some (GoStruct fs) => Ok (decode_fields fs)
  | Some (GoPtr (GoStruct fs)) => Ok (decode_fields fs)
  | _ => Err SchemaDecodeError
  end.

(** The key of an entry under [flatten.DotStyle]: the entry's own key at
    the top level, [prefix.key] below. *)
Definition enkey (top : bool) (prefix subkey : string) : string :=
  if top then prefix +:+ subkey else prefix +:+ "." +:+ subkey.

(** Modelled from the spec: [flatten.Flatten] (third-party, not in the
    repository): walks the nested maps and records every value that is
    not itself a nested map under its dot-delimited path. *)
Fixpoint flatten_generic (newKey : string) (g : generic)
    (flatMap : gmap string value) : gmap string value :=
  match g with
  | GValue v => <[newKey := v]> flatMap
  | GMap entries => flatten_entries false newKey entries flatMap
  end
with flatten_entries (top : bool) (prefix : string) (nested : gentries)
    (flatMap : gmap string value) : gmap string value :=
  match nested with
  | GNil => flatMap
  | GCons k g rest =>
      flatten_entries top prefix rest
        (flatten_generic (enkey top prefix k) g flatMap)
  end.

Definition flatten_Flatten (nested : gentries) (prefix : string)
    : result (gmap string value) :=
  Ok (flatten_entries true prefix nested ∅).

(** [getFlattenedStructKeys] *)
Definition getFlattenedStructKeys (config : param) : result (list string) :=
  match mapstructure_Decode config with
  | Err e => Err e
  | Ok structMap =>
      match flatten_Flatten structMap "" with
      | Err e => Err e
      | Ok flat =>
          let keys := (map_to_list flat).*1 in
          Ok keys
      end
  end.

(** The leaf fields of a struct with their dot-delimited paths, in field
    order. *)
Fixpoint leaves_node (key : string) (n : node) : list (string * leaf) :=
  match n with
  | Leaf lf => [(key, lf)]
  | Struct fs => leaves_fields false key fs
  end
with leaves_fields (top : bool) (prefix : string) (fs : fields)
    : list (string * leaf) :=
  match fs with
  | FNil => []
  | FCons name n rest =>
      leaves_node (enkey top prefix name) n ++ leaves_fields top prefix rest
  end.

Definition leaves (fs : fields) : list (string * leaf) :=
  leaves_fields true "" fs.

(** The Key Flattener in the words of the specification: a leaf field is
    reached by walking nested struct fields, and its Key Path joins the
    field names met on the way with dots. *)
Inductive leaf_path : fields → list string → leaf → Prop :=
  | leaf_path_here name lf rest :
      leaf_path (FCons name (Leaf lf) rest) [name] lf
  | leaf_path_nested name sub rest segs lf :
      leaf_path sub segs lf →
      leaf_path (FCons name (Struct sub) rest) (name :: segs) lf
  | leaf_path_next name n rest segs lf :
      leaf_path rest segs lf →
      leaf_path (FCons name n rest) segs lf.

Fixpoint dotted (segs : list string) : string :=
  match segs with
  | [] => ""
  | [s] => s
  | s :: rest => s +:+ "." +:+ dotted rest
  end.

(** ** The viper instance behind a loader *)

(** The settings and the sources a viper instance holds: the file name,
    the ordered search paths, the file type, the environment prefix, the
    key replacer, the automatic-environment switch, the Key Paths
    registered for environment lookup (each with the variable name it is
    bound to) and the File source. *)
Record Viper : Type := MkViper {
  configName : string;
  configPaths : list string;
  configType : string;
  envPrefix : string;
  envKeyReplacer : option (string * string);
  automaticEnvApplied : bool;
  env : gmap string string;
  config : gmap string value;
}.

(** Modelled from the spec: [viper.New()] (third-party, not in the
    repository): an instance on which no setting has been made. *)
Definition viper_New : Viper :=
  {| configName := ""; configPaths := []; configType := "";
     envPrefix := ""; envKeyReplacer := None; automaticEnvApplied := false;
     env := ∅; config := ∅ |}.

(** Modelled from the spec: [SetConfigName] sets the discovery name. *)
Definition SetConfigName (inp : string) (v : Viper) : Viper :=
  {| configName := inp; configPaths := configPaths v; configType := configType v;
     envPrefix := envPrefix v; envKeyReplacer := envKeyReplacer v;
     automaticEnvApplied := automaticEnvApplied v; env := env v; config := config v |}.

(** Modelled from the spec: [AddConfigPath] appends one directory to the
    ordered search paths. *)
Definition AddConfigPath (inp : string) (v : Viper) : Viper :=
  {| configName := configName v; configPaths := configPaths v ++ [inp];
     configType := configType v;
     envPrefix := envPrefix v; envKeyReplacer := envKeyReplacer v;
     automaticEnvApplied := automaticEnvApplied v; env := env v; config := config v |}.

(** Modelled from the spec: [SetConfigType] sets the format and
    extension. *)
Definition SetConfigType (inp : string) (v : Viper) : Viper :=
  {| configName := configName v; configPaths := configPaths v; configType := inp;
     envPrefix := envPrefix v; envKeyReplacer := envKeyReplacer v;
     automaticEnvApplied := automaticEnvApplied v; env := env v; config := config v |}.

(** Modelled from the spec: [SetEnvPrefix] sets the prefix string. *)
Definition SetEnvPrefix (inp : string) (v : Viper) : Viper :=
  {| configName := configName v; configPaths := configPaths v; configType := configType v;
     envPrefix := inp; envKeyReplacer := envKeyReplacer v;
     automaticEnvApplied := automaticEnvApplied v; env := env v; config := config v |}.

(** Modelled from the spec: [SetEnvKeyReplacer] sets the old-to-new
    substitution applied to Key Paths when deriving variable names. *)
Definition SetEnvKeyReplacer (old new : string) (v : Viper) : Viper :=
  {| configName := configName v; configPaths := configPaths v; configType := configType v;
     envPrefix := envPrefix v; envKeyReplacer := Some (old, new);
     automaticEnvApplied := automaticEnvApplied v; env := env v; config := config v |}.

(** Modelled from the spec: [AutomaticEnv] enables automatic environment
    consultation. *)
Definition AutomaticEnv (v : Viper) : Viper :=
  {| configName := configName v; configPaths := configPaths v; configType := configType v;
     envPrefix := envPrefix v; envKeyReplacer := envKeyReplacer v;
     automaticEnvApplied := true; env := env v; config := config v |}.

(** Field updates of the instance. *)
Definition set_env (e : gmap string string) (v : Viper) : Viper :=
  {| configName := configName v; configPaths := configPaths v; configType := configType v;
     envPrefix := envPrefix v; envKeyReplacer := envKeyReplacer v;
     automaticEnvApplied := automaticEnvApplied v; env := e; config := config v |}.

Definition set_config (c : gmap string value) (v : Viper) : Viper :=
  {| configName := configName v; configPaths := configPaths v; configType := configType v;
     envPrefix := envPrefix v; envKeyReplacer := envKeyReplacer v;
     automaticEnvApplied := automaticEnvApplied v; env := env v; config := c |}.

(** ** Loader and its options *)

(** [Loader] holds a pointer to its viper instance; the instance a call
    mutates in place is returned as the loader's new state. *)
Record Loader : Type := MkLoader { v : Viper }.

Definition LoaderOption : Type := Loader → Loader.

Definition WithViper (inp : Viper) : LoaderOption :=
  fun l => {| v := inp |}.

Definition WithConfigName (inp : string) : LoaderOption :=
  fun l => {| v := SetConfigName inp (v l) |}.

Definition WithConfigPath (inp : string) : LoaderOption :=
  fun l => {| v := AddConfigPath inp (v l) |}.

Definition WithConfigType (inp : string) : LoaderOption :=
  fun l => {| v := SetConfigType inp (v l) |}.

Definition WithEnvPrefix (inp : string) : LoaderOption :=
  fun l => {| v := SetEnvPrefix inp (v l) |}.

Definition WithEnvKeyReplacer (old new : string) : LoaderOption :=
  fun l => {| v := SetEnvKeyReplacer old new (v l) |}.

(** [getViperWithDefaults] *)
Definition getViperWithDefaults : Viper :=
  let v := viper_New in
  let v := SetConfigName "config" v in
  let v := AddConfigPath "./" v in
  let v := SetConfigType "yaml" v in
  let v := SetEnvKeyReplacer "." "_" v in
  v.

(** [NewLoader]: the options are applied in order to the default loader. *)
Definition NewLoader (options : list LoaderOption) : Loader :=
  let loader := {| v := getViperWithDefaults |} in
  foldl (fun l option => option l) loader options.

(** ** The world a load runs in *)

(** A configuration file either parses to a key-value mapping (keyed by
    Key Path) or is malformed. *)
Inductive file : Type :=
  | WellFormed (kv : gmap string value)
  | Malformed.

(** The file system (by full path) and the environment variable table. *)
Record World : Type := MkWorld {
  files : gmap string file;
  environ : gmap string string;
}.

(** The file and environment accesses a call performs. *)
Inductive io_event : Type :=
  | StatFile (path : string)
  | ReadFile (path : string)
  | LookupEnv (name : string).

Fixpoint ends_with_slash (s : string) : bool :=
  match s with
  | EmptyString => false
  | String c EmptyString => bool_decide (c = "/"%char)
  | String _ rest => ends_with_slash rest
  end.

Definition joinPath (dir file : string) : string :=
  if ends_with_slash dir then dir +:+ file else dir +:+ "/" +:+ file.

(** [<config-name>.<config-type>] *)
Definition configFileName (v : Viper) : string :=
  configName v +:+ "." +:+ configType v.

(** The ordered search: the first path holding the file wins. *)
Fixpoint searchInPaths (w : World) (name : string) (paths : list string)
    : list io_event * option string :=
  match paths with
  | [] => ([], None)
  | dir :: rest =>
      let p := joinPath dir name in
      match files w !! p with
      | Some _ => ([StatFile p], Some p)
      | None =>
          let '(io, found) := searchInPaths w name rest in
          (StatFile p :: io, found)
      end
  end.

(** The configuration file a viper instance finds, if any. *)
Definition configFile (v : Viper) (w : World) : option string :=
  (searchInPaths w (configFileName v) (configPaths v)).2.

Inductive read_error : Type :=
  | ConfigFileNotFoundError
  | ParseFailure (path : string).

(** Modelled from the spec: viper's [ReadInConfig] (third-party, not in
    the repository), the [ReadFile()] of the Source Resolver. It looks for
    [<config-name>.<config-type>] across the ordered search paths and
    loads the parsed mapping as the File source; with no matching file the
    File source is empty and the outcome is "not found"; a file that is
    found but does not parse is an error. *)
Definition ReadInConfig (v : Viper) (w : World)
    : option read_error * Viper * list io_event :=
  let '(io, found) := searchInPaths w (configFileName v) (configPaths v) in
  match found with
  | None => (Some ConfigFileNotFoundError, set_config ∅ v, io)
  | Some p =>
      match files w !! p with
      | Some (WellFormed kv) => (None, set_config kv v, io ++ [ReadFile p])
      | _ => (Some (ParseFailure p), v, io ++ [ReadFile p])
      end
  end.

(** Modelled from the spec: the environment variable name of a Key Path,
    [UPPER(PREFIX + "_" + REPLACE(path))], where REPLACE applies the
    configured replacement rule. *)
Definition REPLACE (v : Viper) (path : string) : string :=
  match envKeyReplacer v with
  | Some (old, new) => Replace old new path
  | None => path
  end.

Definition envName (v : Viper) (path : string) : string :=
  ToUpper (envPrefix v +:+ "_" +:+ REPLACE v path).

(** Modelled from the spec: viper's [BindEnv] (third-party, not in the
    repository), the [RegisterKey(path)] of the Source Resolver: it
    registers the Key Path for environment lookup under the synthesized
    variable name. *)
Definition BindEnv (key : string) (v : Viper) : result Viper :=
  Ok (set_env (<[key := envName v key]> (env v)) v).

(** The loop of [Load] binding every flattened key, stopping at the first
    error. *)
Fixpoint bindKeys (configKeys : list string) (v : Viper) : result Viper :=
  match configKeys with
  | [] => Ok v
  | key :: rest =>
      match BindEnv key v with
      | Err e => Err e
      | Ok v' => bindKeys rest v'
      end
  end.

(** Modelled from the spec: [Merge()]: for every registered Key Path the
    highest-ranked non-absent value, the environment's (read live) before
    the file's. Declared defaults live on the target, not in the
    resolver. *)
Definition Merge (v : Viper) (w : World) : gmap string value :=
  map_imap
    (fun key name =>
       match environ w !! name with
       | Some s => Some (Scalar s)
       | None => config v !! key
       end)
    (env v).

Definition set_cur (x : value) (lf : leaf) : leaf :=
  {| lkind := lkind lf; ldefault := ldefault lf; lcur := x |}.

(** Modelled from the spec: [defaults.SetDefaults] (third-party, not in
    the repository): applies the schema-declared default values onto the
    target. *)
Definition apply_default (lf : leaf) : leaf :=
  match ldefault lf with
  | Some d => set_cur d lf
  | None => lf
  end.

(** Rewriting every leaf of a struct, the shape left as it is. *)
Fixpoint map_node (f : leaf → leaf) (n : node) : node :=
  match n with
  | Leaf lf => Leaf (f lf)
  | Struct fs => Struct (map_fields f fs)
  end
with map_fields (f : leaf → leaf) (fs : fields) : fields :=
  match fs with
  | FNil => FNil
  | FCons name n rest => FCons name (map_node f n) (map_fields f rest)
  end.

Definition defaults_fields (fs : fields) : fields := map_fields apply_default fs.

Definition SetDefaults (config : param) : param :=
  match config with
  | Some (GoPtr (GoStruct fs)) => Some (GoPtr (GoStruct (defaults_fields fs)))
  | _ => config
  end.

(** ** Decoding and [Load] *)

(** The outcome of a [Load]: the error returned ([None] is [nil]), the
    loader and the target as the call leaves them, and the file and
    environment accesses performed. *)
Record LoadResult : Type := MkLoadResult {
  lr_err : option error;
  lr_loader : Loader;
  lr_target : param;
  lr_io : list io_event;
}.

Section Decoding.

(** The type coercion of the decoder (third-party [mapstructure]), kept
    abstract: it turns a merged value into a value of the field's kind
    or fails. *)
Variable coerce : basic → value → option value.

(** Decoding one leaf: a leaf without a merged value is left as it is. *)
Definition unmarshal_leaf (merged : gmap string value) (key : string)
    (lf : leaf) : leaf * bool :=
  match merged !! key with
  | None => (lf, true)
  | Some raw =>
      match coerce (lkind lf) raw with
      | Some x => (set_cur x lf, true)
      | None => (lf, false)
      end
  end.

(** What [Load] leaves in a leaf that held [lf] under the Key Path
    [key], given the merged values. *)
Definition decoded (merged : gmap string value) (kl : string * leaf)
    : string * leaf :=
  (kl.1, (unmarshal_leaf merged kl.1 kl.2).1).

Definition decodes (merged : gmap string value) (kl : string * leaf) : bool :=
  (unmarshal_leaf merged kl.1 kl.2).2.

(** Modelled from the spec: the decode step of viper's [Unmarshal]
    (third-party, not in the repository): every field for which a File
    or Environment value exists is overwritten with the coerced value;
    the flag tells whether every coercion succeeded. *)
Fixpoint unmarshal_node (merged : gmap string value) (key : string)
    (n : node) : node * bool :=
  match n with
  | Leaf lf => let '(lf', ok) := unmarshal_leaf merged key lf in (Leaf lf', ok)
  | Struct fs =>
      let '(fs', ok) := unmarshal_fields merged false key fs in (Struct fs', ok)
  end
with unmarshal_fields (merged : gmap string value) (top : bool)
    (prefix : string) (fs : fields) : fields * bool :=
  match fs with
  | FNil => (FNil, true)
  | FCons name n rest =>
      let '(n', ok1) := unmarshal_node merged (enkey top prefix name) n in
      let '(rest', ok2) := unmarshal_fields merged top prefix rest in
      (FCons name n' rest', ok1 && ok2)
  end.

(** The environment lookups of a merge: one per registered Key Path. *)
Definition merge_io (v : Viper) : list io_event :=
  (fun kn => LookupEnv kn.2) <$> map_to_list (env v).

(** Modelled from the spec: viper's [Unmarshal]: [Merge()] followed by
    the decode into the target. *)
Definition Unmarshal (v : Viper) (w : World) (config : param)
    : option error * param * list io_event :=
  match config with
  | Some (GoPtr (GoStruct fs)) =>
      let '(fs', ok) := unmarshal_fields (Merge v w) true "" fs in
      (if ok then None else Some DecodeError,
       Some (GoPtr (GoStruct fs')), merge_io v)
  | _ => (Some DecodeError, config, [])
  end.

(** [func (l *Loader) Load(config interface{}) error] *)
Definition Load (l : Loader) (w : World) (config : param) : LoadResult :=
  match verifyParamIsPtrToStructElsePanic config with
  | Some err =>
      {| lr_err := Some err; lr_loader := l; lr_target := config; lr_io := [] |}
  | None =>
      let v1 := AutomaticEnv (v l) in
      let '(rerr, v2, io1) := ReadInConfig v1 w in
      match rerr with
      | Some (ParseFailure p) =>
          {| lr_err := Some (ConfigFileParseError p);
             lr_loader := {| v := v2 |}; lr_target := config; lr_io := io1 |}
      | _ =>
          match getFlattenedStructKeys config with
          | Err _ =>
              {| lr_err := Some SchemaDecodeError;
                 lr_loader := {| v := v2 |}; lr_target := config; lr_io := io1 |}
          | Ok configKeys =>
              match bindKeys configKeys v2 with
              | Err _ =>
                  {| lr_err := Some EnvironmentBindError;
                     lr_loader := {| v := v2 |}; lr_target := config;
                     lr_io := io1 |}
              | Ok v3 =>
                  let config1 := SetDefaults config in
                  let '(uerr, config2, io2) := Unmarshal v3 w config1 in
                  {| lr_err := uerr; lr_loader := {| v := v3 |};
                     lr_target := config2; lr_io := io1 ++ io2 |}
              end
          end
      end
  end.

End Decoding.

(** A pointer to a struct, the only valid target. *)
Definition ptr_to (fs : fields) : param := Some (GoPtr (GoStruct fs)).

(** The settings a loader is constructed with. *)
Definition settings (l : Loader)
    : string * list string * string * string * option (string * string) :=
  (configName (v l), configPaths (v l), configType (v l), envPrefix (v l),
   envKeyReplacer (v l)).

(** The sources and switches a loader carries besides its settings. *)
Definition sources (l : Loader) : bool * gmap string string * gmap string value :=
  (automaticEnvApplied (v l), env (v l), config (v l)).

(** The struct a valid target points to. *)
Definition target_fields (config : param) : option fields :=
  match config with
  | Some (GoPtr (GoStruct fs)) => Some fs
  | _ => None
  end.

Definition is_digit (c : ascii) : bool :=
  let n := nat_of_ascii c in Nat.leb 48 n && Nat.leb n 57.

Fixpoint all_digits (s : string) : bool :=
  match s with
  | EmptyString => true
  | String c rest => is_digit c && all_digits rest
  end.

(** A decoder for concrete runs: an integer field accepts only a
    non-empty string of decimal digits, every other field any value. *)
Definition coerce_strict (b : basic) (x : value) : option value :=
  match b, x with
  | BInt, Scalar s => if all_digits s && negb (String.eqb s "") then Some x else None
  | BInt, _ => None
  | _, _ => Some x
  end.

(** ** The example scenario of the specification *)

(** Schema [{Server: {Port int default=8080}}], zero-valued. *)
Definition exampleSchema : fields :=
  FCons "server"
    (Struct (FCons "port" (Leaf (MkLeaf BInt (Some (Scalar "8080")) (Scalar "0")))
               FNil))
    FNil.

(** A loader with environment prefix [APP]. *)
Definition exampleLoader : Loader := NewLoader [WithEnvPrefix "APP"].

(** No file, empty environment. *)
Definition worldEmpty : World := MkWorld ∅ ∅.

(** No file, [APP_SERVER_PORT=9090]. *)
Definition worldEnv : World := MkWorld ∅ {[ "APP_SERVER_PORT" := "9090" ]}.

(** A file setting [server.port: 7070] and [APP_SERVER_PORT=9090]. *)
Definition worldFileEnv : World :=
  MkWorld {[ "./config.yaml" := WellFormed {[ "server.port" := Scalar "7070" ]} ]}
          {[ "APP_SERVER_PORT" := "9090" ]}.

(** A file that does not parse. *)
Definition worldMalformed : World :=
  MkWorld {[ "./config.yaml" := Malformed ]} ∅.

End Config.

(** * Further example worlds for package config *)
Module ConfigExamples.
Import Config.

(** A file setting [server.port: 7070], empty environment. *)
Definition worldFile : World :=
  MkWorld {[ "./config.yaml" := WellFormed {[ "server.port" := Scalar "7070" ]} ]} ∅.

(** The same with a key the schema does not have, and a variable no Key
    Path is bound to. *)
Definition worldFileMore : World :=
  MkWorld {[ "./config.yaml" :=
               WellFormed (<[ "server.host" := Scalar "localhost" ]>
                             {[ "server.port" := Scalar "7070" ]}) ]}
          {[ "HOME" := "/root" ]}.

End ConfigExamples.
(** * Package help: the text helpers of the help renderer *)
Module Help.

(** ** Byte strings *)

Definition newline : ascii := "010"%char.
Definition space : ascii := " "%char.

(** [strings.Split(s, "\n")]: the lines of [s]; never empty. *)
Fixpoint Split (s : string) : list string :=
  match s with
  | EmptyString => [EmptyString]
  | String c rest =>
      if decide (c = newline) then EmptyString :: Split rest
      else
        match Split rest with
        | l :: ls => String c l :: ls
        | [] => [String c EmptyString]
        end
  end.

(** [strings.Join(lines, "\n")] *)
Fixpoint Join (lines : list string) : string :=
  match lines with
  | [] => EmptyString
  | [l] => l
  | l :: rest => l +:+ String newline (Join rest)
  end.

(** [strings.TrimLeft(l, " ")]: [l] without its leading spaces. *)
Fixpoint TrimLeft (l : string) : string :=
  match l with
  | EmptyString => EmptyString
  | String c rest => if decide (c = space) then TrimLeft rest else l
  end.

(** [strings.Repeat(" ", n)] for a count that is not negative. *)
Fixpoint Repeat (n : nat) : string :=
  match n with
  | O => EmptyString
  | S k => String space (Repeat k)
  end.

(** [l] without the leading [prefix], when it starts with it. *)
Fixpoint strip_prefix (prefix l : string) : option string :=
  match prefix with
  | EmptyString => Some l
  | String a prefix' =>
      match l with
      | EmptyString => None
      | String b l' => if decide (a = b) then strip_prefix prefix' l' else None
      end
  end.

(** [strings.TrimPrefix(l, prefix)] *)
Definition TrimPrefix (l prefix : string) : string :=
  match strip_prefix prefix l with
  | Some rest => rest
  | None => l
  end.

(** [strings.TrimSuffix(s, suffix)]: the only place where the rest of [s]
    can equal [suffix] is [len(s) - len(suffix)], so cutting at the first
    such place cuts the suffix, and a string that does not end with it is
    returned whole. *)
Fixpoint TrimSuffix (s suffix : string) : string :=
  match s with
  | EmptyString => EmptyString
  | String c rest =>
      if decide (s = suffix) then EmptyString else String c (TrimSuffix rest suffix)
  end.

(** A line holds no newline. *)
Fixpoint no_newline (l : string) : Prop :=
  match l with
  | EmptyString => True
  | String c rest => c ≠ newline ∧ no_newline rest
  end.

(** ** [dedent] *)

(** [len(l) - len(strings.TrimLeft(l, " "))] *)
Definition indentOf (l : string) : Z :=
  Z.of_nat (String.length l) - Z.of_nat (String.length (TrimLeft l)).

(** The first loop of [dedent]: the least indentation of the lines that are
    not empty; [minIndent] starts at [-1]. *)
Fixpoint minIndent_loop (lines : list string) (minIndent : Z) : Z :=
  match lines with
  | [] => minIndent
  | l :: rest =>
      if decide (String.length l = 0) then minIndent_loop rest minIndent
      else
        let indent := indentOf l in
        if decide (minIndent = (-1)%Z ∨ (indent < minIndent)%Z)
        then minIndent_loop rest indent
        else minIndent_loop rest minIndent
  end.

(** The second loop: every line, cut, is written with a newline. *)
Fixpoint dedent_write (lines : list string) (minIndent : Z) (buf : string)
    : string :=
  match lines with
  | [] => buf
  | l :: rest =>
      dedent_write rest minIndent
        (buf +:+ TrimPrefix l (Repeat (Z.to_nat minIndent)) +:+ String newline EmptyString)
  end.

(** [func dedent(s string) string] *)
Definition dedent (s : string) : string :=
  let lines := Split s in
  let minIndent := minIndent_loop lines (-1) in
  if decide (minIndent ≤ 0)%Z then s
  else TrimSuffix (dedent_write lines minIndent EmptyString) (String newline EmptyString).

(** How [dedent] changes one line, given the least indentation [m]. *)
Definition dedented (m : nat) (l l' : string) : Prop :=
  (l = EmptyString ∧ l' = EmptyString) ∨ (l ≠ EmptyString ∧ l = Repeat m +:+ l').

(** ** [indent] *)

Definition byte (c : ascii) : nat := nat_of_ascii c.

(** The ASCII white space of [strings.TrimSpace]: tab, newline, vertical
    tab, form feed, carriage return and space. *)
Definition ascii_space (c : ascii) : bool :=
  bool_decide (byte c = 9 ∨ byte c = 10 ∨ byte c = 11 ∨ byte c = 12
               ∨ byte c = 13 ∨ byte c = 32).

(** The two-byte UTF-8 white space: U+0085 and U+00A0. *)
Definition space2 (c1 c2 : ascii) : bool :=
  bool_decide (byte c1 = 194 ∧ (byte c2 = 133 ∨ byte c2 = 160)).

(** The three-byte UTF-8 white space: U+1680, U+2000 to U+200A, U+2028,
    U+2029, U+202F, U+205F and U+3000. *)
Definition space3 (c1 c2 c3 : ascii) : bool :=
  bool_decide
    ((byte c1 = 225 ∧ byte c2 = 154 ∧ byte c3 = 128)
     ∨ (byte c1 = 226 ∧ byte c2 = 128
        ∧ ((128 ≤ byte c3 ∧ byte c3 ≤ 138) ∨ byte c3 = 168 ∨ byte c3 = 169
           ∨ byte c3 = 175))
     ∨ (byte c1 = 226 ∧ byte c2 = 129 ∧ byte c3 = 159)
     ∨ (byte c1 = 227 ∧ byte c2 = 128 ∧ byte c3 = 128)).

(** [len(strings.TrimSpace(s)) == 0]: [s] decodes to white space only. *)
Fixpoint blank (s : string) : bool :=
  match s with
  | EmptyString => true
  | String c1 r1 =>
      if ascii_space c1 then blank r1
      else
        match r1 with
        | EmptyString => false
        | String c2 r2 =>
            if space2 c1 c2 then blank r2
            else
              match r2 with
              | EmptyString => false
              | String c3 r3 => if space3 c1 c2 c3 then blank r3 else false
              end
        end
  end.

(** The matches of [(?m)^] past the first one: [indent] is inserted after
    every newline, the last one included. *)
Fixpoint after_newlines (indent s : string) : string :=
  match s with
  | EmptyString => EmptyString
  | String c rest =>
      if decide (c = newline) then String c (indent +:+ after_newlines indent rest)
      else String c (after_newlines indent rest)
  end.

(** [lineRE.ReplaceAllLiteralString(s, indent)] with [lineRE = (?m)^]. *)
Definition ReplaceLineStarts (s indent : string) : string :=
  indent +:+ after_newlines indent s.

(** [func indent(s, indent string) string] *)
Definition indent (s indent : string) : string :=
  if blank s then s else ReplaceLineStarts s indent.

(** ** [rpad] *)

(** What the UTF-8 decoder expects after a lead byte: the size of the
    sequence and the range of its second byte; [None] for an ASCII byte
    and for a byte that cannot start a sequence. *)
Definition lead (b : nat) : option (nat * nat * nat) :=
  if decide (b < 194) then None
  else if decide (b ≤ 223) then Some (2, 128, 191)
  else if decide (b = 224) then Some (3, 160, 191)
  else if decide (b ≤ 236) then Some (3, 128, 191)
  else if decide (b = 237) then Some (3, 128, 159)
  else if decide (b ≤ 239) then Some (3, 128, 191)
  else if decide (b = 240) then Some (4, 144, 191)
  else if decide (b ≤ 243) then Some (4, 128, 191)
  else if decide (b = 244) then Some (4, 128, 143)
  else None.

Definition between (lo hi : nat) (c : ascii) : bool :=
  bool_decide (lo ≤ byte c ∧ byte c ≤ hi).

(** [utf8.RuneCountInString]: a well-formed sequence counts for one rune,
    and so does every byte that is not part of one. *)
Fixpoint RuneCountInString (s : string) : nat :=
  match s with
  | EmptyString => 0
  | String c0 r0 =>
      S (match lead (byte c0) with
         | None => RuneCountInString r0
         | Some (size, lo, hi) =>
             match r0 with
             | EmptyString => RuneCountInString r0
             | String c1 r1 =>
                 if between lo hi c1 then
                   if decide (size = 2) then RuneCountInString r1
                   else
                     match r1 with
                     | EmptyString => RuneCountInString r0
                     | String c2 r2 =>
                         if between 128 191 c2 then
                           if decide (size = 3) then RuneCountInString r2
                           else
                             match r2 with
                             | EmptyString => RuneCountInString r0
                             | String c3 r3 =>
                                 if between 128 191 c3
                                 then RuneCountInString r3
                                 else RuneCountInString r0
                             end
                         else RuneCountInString r0
                     end
                 else RuneCountInString r0
             end
         end)
  end.

(** A string of ASCII bytes. *)
Fixpoint all_ascii (s : string) : Prop :=
  match s with
  | EmptyString => True
  | String c rest => byte c < 128 ∧ all_ascii rest
  end.

(** [func rpad(s string, padding int) string]: the template is
    ["%-<padding>s "]. A negative [padding] only repeats the [-] flag, so
    the width is its absolute value; [fmt] gives up on a width whose digits
    before the last already exceed [1e6] and then reports the missing verb
    and the unused argument. Otherwise [s] is padded on the right with
    spaces up to the width, counted in runes, and a space follows. *)
Definition rpad (s : string) (padding : Z) : string :=
  let width := Z.abs padding in
  if decide (10000010 ≤ width)%Z
  then "%!(NOVERB)%!(EXTRA string=" +:+ s +:+ ")"
  else s +:+ Repeat (Z.to_nat (width - Z.of_nat (RuneCountInString s)))
         +:+ String space EmptyString.

End Help.

(** * Package cmdx: help, usage and reference of a command tree *)
Module Cmdx.
Import Help.

(** ** Commands *)

(** What the renderer reads from a [*cobra.Command]: the results of its
    accessors and its exported fields. *)
Record CmdInfo : Type := MkCmdInfo {
  Name : string;
  UseLine : string;
  CommandPath : string;
  Short : string;
  Long : string;
  Example : string;
  Hidden : bool;
  Annotations : gmap string string;
  NamePadding : Z;
  LocalFlagUsages : string;
  InheritedFlagUsages : string;
  FlagUsages : string;
  SuggestionsMinimumDistance : Z;
}.

#[local] Set Warnings "-register-all".
#[local] Unset Elimination Schemes.
Inductive Command : Type :=
  | Cmd (info : CmdInfo) (commands : list Command).
#[local] Set Elimination Schemes.

Definition Info (c : Command) : CmdInfo :=
  match c with Cmd info _ => info end.

Definition Commands (c : Command) : list Command :=
  match c with Cmd _ commands => commands end.

(** Induction over a command tree. *)
Fixpoint Command_tree_ind (P : Command → Prop)
    (H : ∀ info commands, Forall P commands → P (Cmd info commands))
    (c : Command) : P c :=
  match c with
  | Cmd info commands =>
      H info commands
        ((fix go (l : list Command) : Forall P l :=
            match l with
            | [] => @List.Forall_nil Command P
            | x :: rest => @List.Forall_cons Command P x rest (Command_tree_ind P H x) (go rest)
            end) commands)
  end.

(** The streams written to: the command's error stream ([Print],
    [Printf], [Println]), its output stream ([OutOrStdout]) and the
    standard output of the process ([fmt.Println]). *)
Inductive stream : Type := OutOrStderr | OutOrStdout | Stdout.

#[global] Instance stream_eq_dec : EqDecision stream.
Proof. solve_decision. Defined.

Definition nl : string := String newline EmptyString.

(** ** Usage *)

(** The loop of [rootUsageFunc] over the subcommands. *)
Fixpoint usage_rows (subcommands : list Command) : list (stream * string) :=
  match subcommands with
  | [] => []
  | c :: rest =>
      if Hidden (Info c) then usage_rows rest
      else (OutOrStderr, "  " +:+ Name (Info c) +:+ nl) :: usage_rows rest
  end.

(** [func rootUsageFunc(command *cobra.Command) error]: what it writes; the
    error returned is always [nil]. *)
Definition rootUsageFunc (command : Command) : list (stream * string) :=
  let out := [(OutOrStderr, "Usage:  " +:+ UseLine (Info command))] in
  let subcommands := Commands command in
  if decide (0 < length subcommands) then
    out ++ [(OutOrStderr, nl +:+ nl +:+ "Available commands:" +:+ nl)]
        ++ usage_rows subcommands
  else
    let flagUsages := LocalFlagUsages (Info command) in
    if decide (flagUsages ≠ EmptyString) then
      out ++ [(OutOrStderr, nl +:+ nl +:+ "Flags:" +:+ nl);
              (OutOrStderr, indent (dedent flagUsages) "  ")]
    else out.


(** ** Help *)

(** The three groups of [rootHelpFunc]. *)
Record groups : Type := MkGroups {
  coreCommands : list string;
  otherCommands : gmap string (list string);
  additionalCommands : list string;
}.

(** [otherCommands[g] = append(otherCommands[g], s)] *)
Definition append_other (g s : string) (m : gmap string (list string))
    : gmap string (list string) :=
  <[g := default [] (m !! g) ++ [s]]> m.

(** The row of a subcommand. *)
Definition row (c : Command) : string :=
  rpad (Name (Info c)) (NamePadding (Info c)) +:+ Short (Info c).

(** The grouping loop of [rootHelpFunc]. *)
Fixpoint group_loop (commands : list Command) (g : groups) : groups :=
  match commands with
  | [] => g
  | c :: rest =>
      if decide (Short (Info c) = EmptyString) then group_loop rest g
      else if Hidden (Info c) then group_loop rest g
      else
        let s := row c in
        match Annotations (Info c) !! "group:core" with
        | Some _ =>
            group_loop rest
              (MkGroups (coreCommands g ++ [s]) (otherCommands g)
                 (additionalCommands g))
        | None =>
            match Annotations (Info c) !! "group:other" with
            | Some grp =>
                group_loop rest
                  (MkGroups (coreCommands g)
                     (append_other grp s (otherCommands g))
                     (additionalCommands g))
            | None =>
                group_loop rest
                  (MkGroups (coreCommands g) (otherCommands g)
                     (additionalCommands g ++ [s]))
            end
        end
  end.

(** The subcommands the help lists, and the group each falls in. *)
Definition listed (c : Command) : Prop :=
  Short (Info c) ≠ EmptyString ∧ Hidden (Info c) = false.

Definition core_row (c : Command) : Prop :=
  listed c ∧ is_Some (Annotations (Info c) !! "group:core").

Definition other_row (grp : string) (c : Command) : Prop :=
  listed c ∧ Annotations (Info c) !! "group:core" = None
  ∧ Annotations (Info c) !! "group:other" = Some grp.

Definition additional_row (c : Command) : Prop :=
  listed c ∧ Annotations (Info c) !! "group:core" = None
  ∧ Annotations (Info c) !! "group:other" = None.

#[global] Instance listed_dec c : Decision (listed c).
Proof. unfold listed. apply _. Defined.

#[global] Instance core_row_dec c : Decision (core_row c).
Proof. unfold core_row. apply _. Defined.

#[global] Instance other_row_dec grp c : Decision (other_row grp c).
Proof. unfold other_row. apply _. Defined.

#[global] Instance additional_row_dec c : Decision (additional_row c).
Proof. unfold additional_row. apply _. Defined.

(** The rows of all the named groups together. *)
Definition other_rows (m : gmap string (list string)) : list string :=
  concat (map_to_list m).*2.

(** The rows of all groups together. *)
Definition all_rows (g : groups) : list string :=
  coreCommands g ++ other_rows (otherCommands g) ++ additionalCommands g.

(** The groups after the fallback: with no core and no other command,
    every command is a core command. *)
Definition grouped (command : Command) : groups :=
  let g := group_loop (Commands command) (MkGroups [] ∅ []) in
  if decide (length (coreCommands g) = 0 ∧ size (otherCommands g) = 0)
  then MkGroups (additionalCommands g) (otherCommands g) []
  else g.












Section Suggestions.

(** [%q] of [fmt] ([strconv.Quote]) and cobra's [SuggestionsFor], both
    outside the repository. *)
Variable quote : string → string.
Variable SuggestionsFor : Command → string → list string.



End Suggestions.

(** ** Reference *)

(** [func cmdRef(w io.Writer, cmd *cobra.Command, depth int)]: what it
    writes to [w]. *)
Fixpoint cmdRef (cmd : Command) (depth : nat) : string :=
  match cmd with
  | Cmd info commands =>
      String.concat EmptyString (replicate depth "#")
        +:+ " `" +:+ UseLine info +:+ "`" +:+ nl +:+ nl
      +:+ Short info +:+ nl +:+ nl
      +:+ (if decide (FlagUsages info ≠ EmptyString)
           then "```" +:+ nl +:+ dedent (FlagUsages info) +:+ "````" +:+ nl +:+ nl
           else EmptyString)
      +:+ (fix subcommands (l : list Command) : string :=
             match l with
             | [] => EmptyString
             | c :: rest =>
                 (if Hidden (Info c) then EmptyString else cmdRef c (S depth))
                 +:+ subcommands rest
             end) commands
  end.

(** The loop of [cmdRef] over the subcommands, by name. *)
Fixpoint subcommand_refs (depth : nat) (l : list Command) : string :=
  match l with
  | [] => EmptyString
  | c :: rest =>
      (if Hidden (Info c) then EmptyString else cmdRef c (S depth))
      +:+ subcommand_refs depth rest
  end.

(** The loop of [referenceLong] over the commands of the root. *)
Fixpoint reference_rows (commands : list Command) : string :=
  match commands with
  | [] => EmptyString
  | c :: rest =>
      (if Hidden (Info c) then EmptyString else cmdRef c 2) +:+ reference_rows rest
  end.

(** [func referenceLong(cmd *cobra.Command) string] *)
Definition referenceLong (cmd : Command) : string :=
  "# " +:+ Name (Info cmd) +:+ " reference" +:+ nl +:+ nl
  +:+ reference_rows (Commands cmd).

(** The visible part of a command tree: the hidden subcommands, with all
    below them, removed at every level. *)
Fixpoint visible_tree (cmd : Command) : Command :=
  match cmd with
  | Cmd info commands =>
      Cmd info
        ((fix go (l : list Command) : list Command :=
            match l with
            | [] => []
            | c :: rest =>
                if Hidden (Info c) then go rest else visible_tree c :: go rest
            end) commands)
  end.

Fixpoint visible_list (l : list Command) : list Command :=
  match l with
  | [] => []
  | c :: rest =>
      if Hidden (Info c) then visible_list rest
      else visible_tree c :: visible_list rest
  end.

(** ** An example tree *)

Definition exampleConfigCmd : Command :=
  Cmd (MkCmdInfo "config" "salt config" "salt config" "Manage config"
         "" "" false ∅ 11 "      --file string   Config file" "" "" 0) [].

Definition exampleDebugCmd : Command :=
  Cmd (MkCmdInfo "debug" "salt debug" "salt debug" "Debug"
         "" "" true ∅ 11 "" "" "" 0) [exampleConfigCmd].

Definition exampleRoot : Command :=
  Cmd (MkCmdInfo "salt" "salt" "salt" "" "" "" false ∅ 0 "" "" "" 0)
    [exampleConfigCmd; exampleDebugCmd].

End Cmdx.

#[local] Set Warnings "-clear-no-such-hyp".

(** * Properties of package log *)
Module LogProps.
Import Log.

Lemma getFields_loop_spec (fuel : nat) :
  ∀ (pre rest : list iface) (m : gmap string iface),
    length rest ≤ fuel →
    getFields_loop fuel (pre ++ rest) (length pre + 1) m =
      if decide (Forall is_string (keys_of rest))
      then Returns (bind_keys (keys_of rest) m) else Panics.
Proof.
  induction fuel as [|fuel IH]; intros pre rest m Hlen.
  - destruct rest; [|simpl in Hlen; lia]. done.
  - cbn [getFields_loop]. rewrite length_app.
    destruct rest as [|k [|x rest]].
    + rewrite decide_False by (simpl; lia). done.
    + rewrite decide_False by (simpl; lia). done.
    + rewrite decide_True by (simpl; lia).
      replace (length pre + 1 - 1) with (length pre + 0) by lia.
      rewrite lookup_app_r by lia.
      replace (length pre + 0 - length pre) with 0 by lia.
      cbn [lookup list_lookup keys_of].
      replace (pre ++ k :: x :: rest) with ((pre ++ [k; x]) ++ rest)
        by (rewrite <- app_assoc; done).
      replace (length pre + 1 + 2) with (length (pre ++ [k; x]) + 1)
        by (rewrite length_app; simpl; lia).
      destruct k as [s| | |]; cbn [assert_string bind_keys].
      * rewrite IH by (simpl in Hlen; lia).
        destruct (decide (Forall is_string (keys_of rest))) as [Hf|Hf].
        -- rewrite decide_True by (constructor; simpl; done). done.
        -- rewrite decide_False; [done|]. intros H; inversion H; done.
      * rewrite decide_False; [done|]. intros H; inversion H; done.
      * rewrite decide_False; [done|]. intros H; inversion H; done.
      * rewrite decide_False; [done|]. intros H; inversion H; done.
Qed.

Lemma bind_keys_lookup (ks : list iface) :
  ∀ (m : gmap string iface) (s : string),
    Forall is_string ks →
    bind_keys ks m !! s =
      if decide (IString s ∈ ks) then Some (IString s) else m !! s.
Proof.
  induction ks as [|k ks IH]; intros m s Hall; cbn [bind_keys].
  - case_decide as H; [by apply elem_of_nil in H|done].
  - inversion Hall as [|? ? Hk Hks]; subst.
    destruct k as [t| | |]; simpl in Hk; try done.
    rewrite IH by done.
    destruct (decide (IString s ∈ ks)) as [Hin|Hin].
    + rewrite decide_True; [done|]. by right.
    + destruct (decide (t = s)) as [->|Hne].
      * rewrite lookup_insert_eq. rewrite decide_True; [done|]. by left.
      * rewrite lookup_insert_ne by done.
        rewrite decide_False; [done|].
        intros Hel. apply elem_of_cons in Hel as [Heq|?]; [congruence|done].
Qed.

Lemma getFields_even (args : list iface) :
  2 ≤ length args → length args `mod` 2 = 0 →
  getFields args =
    if decide (Forall is_string (keys_of args))
    then Returns (bind_keys (keys_of args) ∅) else Panics.
Proof.
  intros H2 Hev. unfold getFields.
  rewrite decide_True by (split; [lia|done]).
  apply (getFields_loop_spec (length args) [] args ∅). done.
Qed.

(** The call of the repository's test, [Debug("current values", "day", 11,
    "month", "aug")], builds the fields [day=day month=month]. *)
Example getFields_test_fields :
  getFields [IString "day"; IInt 11; IString "month"; IString "aug"] =
    Returns (<["month" := IString "month"]> (<["day" := IString "day"]> ∅)).
Proof. reflexivity. Qed.

(** C10, as stated, fails on an even-length list whose key is not a
    string: the type assertion [args[i-1].(string)] panics, and no field
    map is produced. *)
Lemma getFields_non_string_key :
  length [IInt 11; IString "eleven"] = 2 ∧
  getFields [IInt 11; IString "eleven"] = Panics ∧
  ¬ ∃ fieldMap, getFields [IInt 11; IString "eleven"] = Returns fieldMap.
Proof.
  split; [reflexivity|]. split; [reflexivity|].
  intros [fieldMap H]. discriminate H.
Qed.

(** C10 (amended): with fewer than two arguments or an odd number of them
    [getFields] returns the empty field map; with an even number, at least
    two, whose even-position arguments are all strings, it returns the map
    that binds each such key to the key itself and nothing else, so that
    no odd-position argument is used; with an even-position argument that
    is not a string it panics. *)
Theorem getFields_binds_keys_to_themselves (args : list iface) :
  (length args < 2 ∨ length args `mod` 2 ≠ 0 → getFields args = Returns ∅) ∧
  (2 ≤ length args → length args `mod` 2 = 0 →
   Forall is_string (keys_of args) →
   ∃ fieldMap, getFields args = Returns fieldMap ∧
     ∀ (s : string) (x : iface),
       fieldMap !! s = Some x ↔ x = IString s ∧ IString s ∈ keys_of args) ∧
  (2 ≤ length args → length args `mod` 2 = 0 →
   ¬ Forall is_string (keys_of args) → getFields args = Panics).
Proof.
  split; [|split].
  - intros Hshort. unfold getFields.
    rewrite decide_False; [done|]. intros [? ?]. destruct Hshort; [lia|done].
  - intros H2 Hev Hall. rewrite getFields_even by done.
    rewrite decide_True by done.
    eexists; split; [done|]. intros s x.
    rewrite bind_keys_lookup by done.
    destruct (decide (IString s ∈ keys_of args)) as [Hin|Hin].
    + split; [intros [= <-]; done | intros [-> _]; done].
    + rewrite lookup_empty. split; [done | intros [_ ?]; done].
  - intros H2 Hev Hall. rewrite getFields_even by done.
    rewrite decide_False by done. done.
Qed.

Lemma getFields_binds_keys_to_themselves_witness :
  ∃ fieldMap,
    getFields [IString "day"; IInt 11; IString "month"; IString "aug"] =
      Returns fieldMap ∧
    ∀ (s : string) (x : iface),
      fieldMap !! s = Some x ↔
      x = IString s ∧
      IString s ∈ keys_of [IString "day"; IInt 11; IString "month"; IString "aug"].
Proof.
  apply (getFields_binds_keys_to_themselves
           [IString "day"; IInt 11; IString "month"; IString "aug"]).
  - simpl; lia.
  - reflexivity.
  - repeat constructor.
Defined.

End LogProps.

(** * Properties of package config *)
Module ConfigProps.
Import Config.

(** ** Construction *)

Lemma NewLoader_app (before after : list LoaderOption) :
  NewLoader (before ++ after) =
    foldl (fun l option => option l) (NewLoader before) after.
Proof. unfold NewLoader. apply foldl_app. Qed.

(** C9, as stated, fails for [WithConfigPath]: the option does not
    override the default search path, it appends to it, and ["./"] is
    still searched first. *)
Lemma WithConfigPath_keeps_default_path :
  configPaths (v (NewLoader [WithConfigPath "/etc/app"])) = ["./"; "/etc/app"] ∧
  configPaths (v (NewLoader [WithConfigPath "/etc/app"])) ≠ ["/etc/app"].
Proof. split; [reflexivity | discriminate]. Qed.

(** C9 (amended): a loader built with no options has name "config", the
    single search path "./", type "yaml", no environment prefix and the
    replacer "." to "_"; every option but [WithViper] changes one setting
    and leaves the other settings and the sources alone, [WithConfigPath]
    appending its directory after the paths already there;
    [WithViper] replaces the whole instance, so that the options applied
    before it have no effect. *)
Theorem NewLoader_defaults_and_options :
  settings (NewLoader []) = ("config", ["./"], "yaml", "", Some (".", "_")) ∧
  (∀ (l : Loader) (s : string),
     settings (WithConfigName s l) =
       (s, configPaths (v l), configType (v l), envPrefix (v l), envKeyReplacer (v l))
     ∧ sources (WithConfigName s l) = sources l) ∧
  (∀ (l : Loader) (s : string),
     settings (WithConfigPath s l) =
       (configName (v l), configPaths (v l) ++ [s], configType (v l),
        envPrefix (v l), envKeyReplacer (v l))
     ∧ sources (WithConfigPath s l) = sources l) ∧
  (∀ (l : Loader) (s : string),
     settings (WithConfigType s l) =
       (configName (v l), configPaths (v l), s, envPrefix (v l), envKeyReplacer (v l))
     ∧ sources (WithConfigType s l) = sources l) ∧
  (∀ (l : Loader) (s : string),
     settings (WithEnvPrefix s l) =
       (configName (v l), configPaths (v l), configType (v l), s, envKeyReplacer (v l))
     ∧ sources (WithEnvPrefix s l) = sources l) ∧
  (∀ (l : Loader) (old new : string),
     settings (WithEnvKeyReplacer old new l) =
       (configName (v l), configPaths (v l), configType (v l), envPrefix (v l),
        Some (old, new))
     ∧ sources (WithEnvKeyReplacer old new l) = sources l) ∧
  (∀ (before after : list LoaderOption) (inp : Viper),
     NewLoader (before ++ WithViper inp :: after) =
       foldl (fun l option => option l) {| v := inp |} after).
Proof.
  repeat split.
  intros before after inp.
  rewrite NewLoader_app. reflexivity.
Qed.

(** ** Validation of the target *)

Lemma verify_valid (fs : fields) :
  verifyParamIsPtrToStructElsePanic (ptr_to fs) = None.
Proof. reflexivity. Qed.

Lemma verify_invalid (config : param) :
  target_fields config = None →
  ∃ k b, verifyParamIsPtrToStructElsePanic config = Some (InvalidTargetError k b).
Proof.
  intros H. unfold verifyParamIsPtrToStructElsePanic.
  destruct config as [[fs|b x| |[fs|b x| |t]]|]; simpl in *;
    try discriminate H; eauto.
  all: destruct b; simpl; eauto.
Qed.

(** C4: a target that is not a pointer to a struct (a value that is not a
    pointer, a pointer to something that is not a struct, a nil pointer or
    nil) makes [Load] return [InvalidTargetError] having performed no file
    or environment access and having changed neither the target nor the
    loader. *)
Theorem Load_invalid_target
    (coerce : basic → value → option value)
    (l : Loader) (w : World) (config : param) :
  target_fields config = None →
  (∃ k b, lr_err (Load coerce l w config) = Some (InvalidTargetError k b)) ∧
  lr_io (Load coerce l w config) = [] ∧
  lr_target (Load coerce l w config) = config ∧
  lr_loader (Load coerce l w config) = l.
Proof.
  intros H. destruct (verify_invalid config H) as (k & b & Hv).
  unfold Load. rewrite Hv. simpl. repeat split; eauto.
Qed.

Lemma Load_invalid_target_witness :
  (∃ k b, lr_err (Load coerce_strict (NewLoader []) (MkWorld ∅ ∅)
                    (Some (GoPtr (GoBasic BInt (Scalar "7")))))
          = Some (InvalidTargetError k b)) ∧
  lr_io (Load coerce_strict (NewLoader []) (MkWorld ∅ ∅)
           (Some (GoPtr (GoBasic BInt (Scalar "7"))))) = [] ∧
  lr_target (Load coerce_strict (NewLoader []) (MkWorld ∅ ∅)
               (Some (GoPtr (GoBasic BInt (Scalar "7")))))
    = Some (GoPtr (GoBasic BInt (Scalar "7"))) ∧
  lr_loader (Load coerce_strict (NewLoader []) (MkWorld ∅ ∅)
               (Some (GoPtr (GoBasic BInt (Scalar "7"))))) = NewLoader [].
Proof.
  apply (Load_invalid_target coerce_strict (NewLoader []) (MkWorld ∅ ∅)
           (Some (GoPtr (GoBasic BInt (Scalar "7"))))).
  reflexivity.
Defined.


(** ** The key flattener *)

Lemma append_assoc (a b c : string) : (a +:+ b) +:+ c = a +:+ (b +:+ c).
Proof.
  induction a as [|x a IH]; [done|].
  change (String x ((a +:+ b) +:+ c) = String x (a +:+ (b +:+ c))).
  by rewrite IH.
Qed.

Lemma enkey_nested (top : bool) (prefix name d : string) :
  enkey false (enkey top prefix name) d = enkey top prefix (name +:+ "." +:+ d).
Proof. unfold enkey. destruct top; by rewrite !append_assoc. Qed.

Lemma leaf_path_nonempty (fs : fields) (segs : list string) (lf : leaf) :
  leaf_path fs segs lf → segs ≠ [].
Proof. induction 1; done. Qed.

Lemma dotted_cons (name : string) (segs : list string) :
  segs ≠ [] → dotted (name :: segs) = name +:+ "." +:+ dotted segs.
Proof. destruct segs; done. Qed.

Lemma flatten_dom_mut :
  (∀ (n : node) (key : string) (m : gmap string value),
     dom (flatten_generic key (decode_node n) m)
     = dom m ∪ list_to_set (leaves_node key n).*1) ∧
  (∀ (fs : fields) (top : bool) (prefix : string) (m : gmap string value),
     dom (flatten_entries top prefix (decode_fields fs) m)
     = dom m ∪ list_to_set (leaves_fields top prefix fs).*1).
Proof.
  set (P := fun n => ∀ key (m : gmap string value),
       dom (flatten_generic key (decode_node n) m)
       = dom m ∪ list_to_set (leaves_node key n).*1).
  set (P0 := fun fs => ∀ top prefix (m : gmap string value),
       dom (flatten_entries top prefix (decode_fields fs) m)
       = dom m ∪ list_to_set (leaves_fields top prefix fs).*1).
  assert (Hleaf : ∀ lf, P (Leaf lf)).
  { intros lf key m. simpl. rewrite dom_insert_L. set_solver. }
  assert (Hstruct : ∀ fs, P0 fs → P (Struct fs)).
  { intros fs IH key m. simpl. apply IH. }
  assert (Hnil : P0 FNil).
  { intros top prefix m. simpl. set_solver. }
  assert (Hcons : ∀ name n, P n → ∀ rest, P0 rest → P0 (FCons name n rest)).
  { intros name n IHn rest IHrest top prefix m. simpl.
    rewrite IHrest, IHn, fmap_app, list_to_set_app_L. set_solver. }
  split; [apply (node_mut P P0) | apply (fields_mut P P0)]; done.
Qed.

Lemma leaves_complete (fs : fields) (segs : list string) (lf : leaf) :
  leaf_path fs segs lf →
  ∀ (top : bool) (prefix : string),
    (enkey top prefix (dotted segs), lf) ∈ leaves_fields top prefix fs.
Proof.
  induction 1 as [name lf rest | name sub rest segs lf Hp IH
                 | name n rest segs lf Hp IH]; intros top prefix;
    cbn [leaves_fields leaves_node].
  - apply elem_of_app. left. apply list_elem_of_singleton. done.
  - rewrite dotted_cons by (eapply leaf_path_nonempty; done).
    rewrite <- enkey_nested. apply elem_of_app. left. apply IH.
  - apply elem_of_app. right. apply IH.
Qed.

Lemma leaves_sound_mut :
  (∀ (n : node) (key k : string) (lf : leaf),
     (k, lf) ∈ leaves_node key n →
     (n = Leaf lf ∧ k = key) ∨
     ∃ sub segs, n = Struct sub ∧ leaf_path sub segs lf
                 ∧ k = enkey false key (dotted segs)) ∧
  (∀ (fs : fields) (top : bool) (prefix k : string) (lf : leaf),
     (k, lf) ∈ leaves_fields top prefix fs →
     ∃ segs, leaf_path fs segs lf ∧ k = enkey top prefix (dotted segs)).
Proof.
  set (P := fun n => ∀ (key k : string) (lf : leaf),
     (k, lf) ∈ leaves_node key n →
     (n = Leaf lf ∧ k = key) ∨
     ∃ sub segs, n = Struct sub ∧ leaf_path sub segs lf
                 ∧ k = enkey false key (dotted segs)).
  set (P0 := fun fs => ∀ (top : bool) (prefix k : string) (lf : leaf),
     (k, lf) ∈ leaves_fields top prefix fs →
     ∃ segs, leaf_path fs segs lf ∧ k = enkey top prefix (dotted segs)).
  assert (Hleaf : ∀ lf, P (Leaf lf)).
  { intros lf key k lf' Hin. simpl in Hin.
    apply list_elem_of_singleton in Hin. left. naive_solver. }
  assert (Hstruct : ∀ fs, P0 fs → P (Struct fs)).
  { intros fs IH key k lf Hin. simpl in Hin. right.
    destruct (IH _ _ _ _ Hin) as (segs & Hp & ->). eauto. }
  assert (Hnil : P0 FNil).
  { intros top prefix k lf Hin. simpl in Hin. by apply elem_of_nil in Hin. }
  assert (Hcons : ∀ name n, P n → ∀ rest, P0 rest → P0 (FCons name n rest)).
  { intros name n IHn rest IHrest top prefix k lf Hin. simpl in Hin.
    apply elem_of_app in Hin as [Hin|Hin].
    - destruct (IHn _ _ _ Hin) as [[-> ->] | (sub & segs & -> & Hp & ->)].
      + exists [name]. split; [constructor | done].
      + exists (name :: segs). split; [by constructor|].
        rewrite dotted_cons by (eapply leaf_path_nonempty; done).
        by rewrite enkey_nested.
    - destruct (IHrest _ _ _ _ Hin) as (segs & Hp & ->).
      exists segs. split; [by constructor | done]. }
  split; [apply (node_mut P P0) | apply (fields_mut P P0)]; done.
Qed.

Lemma elem_of_map_keys (m : gmap string value) (p : string) :
  p ∈ (map_to_list m).*1 ↔ p ∈ dom m.
Proof.
  rewrite elem_of_dom, list_elem_of_fmap. split.
  - intros ([k x] & -> & Hin). apply elem_of_map_to_list in Hin. eauto.
  - intros [x Hx]. exists (p, x). split; [done|].
    by apply elem_of_map_to_list.
Qed.

(** The flattened keys are exactly the Key Paths of the leaves. *)
Lemma getFlattenedStructKeys_leaves (fs : fields) :
  ∃ keys, getFlattenedStructKeys (ptr_to fs) = Ok keys ∧ NoDup keys ∧
          ∀ p, p ∈ keys ↔ p ∈ (leaves fs).*1.
Proof.
  unfold getFlattenedStructKeys, ptr_to, mapstructure_Decode, flatten_Flatten.
  eexists; split; [done|]. split.
  - apply NoDup_fst_map_to_list.
  - intros p.
    rewrite elem_of_map_keys.
    destruct flatten_dom_mut as [_ H]. rewrite H.
    unfold leaves. set_solver.
Qed.

(** ** Registering keys *)

Lemma set_env_set_env (e1 e2 : gmap string string) (vp : Viper) :
  set_env e2 (set_env e1 vp) = set_env e2 vp.
Proof. reflexivity. Qed.

Lemma set_env_id (vp : Viper) : set_env (env vp) vp = vp.
Proof. by destruct vp. Qed.

Lemma envName_set_env (e : gmap string string) (vp : Viper) (k : string) :
  envName (set_env e vp) k = envName vp k.
Proof. reflexivity. Qed.

Lemma bindKeys_env (keys : list string) :
  ∀ vp : Viper,
  ∃ e : gmap string string,
    bindKeys keys vp = Ok (set_env e vp) ∧
    ∀ k, e !! k = if decide (k ∈ keys) then Some (envName vp k) else env vp !! k.
Proof.
  induction keys as [|key rest IH]; intros vp.
  - exists (env vp). split; [by rewrite set_env_id|].
    intros k. case_decide as H; [by apply elem_of_nil in H | done].
  - cbn [bindKeys]. unfold BindEnv.
    destruct (IH (set_env (<[key:=envName vp key]> (env vp)) vp)) as (e & He & Hl).
    exists e. split; [by rewrite He, set_env_set_env|].
    intros k. rewrite Hl. cbn [env set_env]. rewrite envName_set_env.
    destruct (decide (k ∈ rest)) as [Hin|Hin].
    + rewrite decide_True; [done | by right].
    + destruct (decide (key = k)) as [->|Hne].
      * rewrite lookup_insert_eq. rewrite decide_True; [done | by left].
      * rewrite lookup_insert_ne by done.
        rewrite decide_False; [done|].
        intros Hel. apply elem_of_cons in Hel as [?|?]; [congruence | done].
Qed.

Lemma Merge_lookup (vp : Viper) (w : World) (k : string) :
  Merge vp w !! k =
    match env vp !! k with
    | Some name =>
        match environ w !! name with
        | Some s => Some (Scalar s)
        | None => config vp !! k
        end
    | None => None
    end.
Proof.
  unfold Merge. rewrite map_lookup_imap.
  destruct (env vp !! k); done.
Qed.

(** ** Reading the file *)

Lemma searchInPaths_found (w : World) (name : string) (paths : list string)
    (p : string) :
  (searchInPaths w name paths).2 = Some p → is_Some (files w !! p).
Proof.
  induction paths as [|dir rest IH]; simpl; [done|].
  destruct (files w !! joinPath dir name) eqn:Hf.
  - simpl. intros [= <-]. by rewrite Hf.
  - destruct (searchInPaths w name rest) as [io found]. simpl in *. done.
Qed.

Lemma ReadInConfig_not_found (vp : Viper) (w : World) :
  configFile vp w = None →
  ∃ io, ReadInConfig vp w = (Some ConfigFileNotFoundError, set_config ∅ vp, io).
Proof.
  unfold configFile, ReadInConfig.
  destruct (searchInPaths w (configFileName vp) (configPaths vp)) as [io found].
  simpl. intros ->. eauto.
Qed.

Lemma ReadInConfig_found (vp : Viper) (w : World) (path : string)
    (kv : gmap string value) :
  configFile vp w = Some path → files w !! path = Some (WellFormed kv) →
  ∃ io, ReadInConfig vp w = (None, set_config kv vp, io).
Proof.
  unfold configFile, ReadInConfig.
  destruct (searchInPaths w (configFileName vp) (configPaths vp)) as [io found].
  simpl. intros -> ->. eauto.
Qed.

Lemma ReadInConfig_malformed (vp : Viper) (w : World) (path : string) :
  configFile vp w = Some path → files w !! path = Some Malformed →
  ∃ io, ReadInConfig vp w = (Some (ParseFailure path), vp, io).
Proof.
  unfold configFile, ReadInConfig.
  destruct (searchInPaths w (configFileName vp) (configPaths vp)) as [io found].
  simpl. intros -> ->. eauto.
Qed.

Lemma configFile_cases (vp : Viper) (w : World) :
  configFile vp w = None ∨
  (∃ path kv, configFile vp w = Some path ∧ files w !! path = Some (WellFormed kv)) ∨
  (∃ path, configFile vp w = Some path ∧ files w !! path = Some Malformed).
Proof.
  destruct (configFile vp w) as [path|] eqn:Hc; [|by left]. right.
  destruct (searchInPaths_found _ _ _ _ Hc) as [[kv|] Hf]; eauto.
Qed.


(** ** Defaults and decoding, leaf by leaf *)

Lemma leaves_map_mut (f : leaf → leaf) :
  (∀ (n : node) (key : string),
     leaves_node key (map_node f n) = prod_map id f <$> leaves_node key n) ∧
  (∀ (fs : fields) (top : bool) (prefix : string),
     leaves_fields top prefix (map_fields f fs)
     = prod_map id f <$> leaves_fields top prefix fs).
Proof.
  set (P := fun n => ∀ key : string,
     leaves_node key (map_node f n) = prod_map id f <$> leaves_node key n).
  set (P0 := fun fs => ∀ (top : bool) (prefix : string),
     leaves_fields top prefix (map_fields f fs)
     = prod_map id f <$> leaves_fields top prefix fs).
  assert (Hcons : ∀ name n, P n → ∀ rest, P0 rest → P0 (FCons name n rest)).
  { intros name n IHn rest IHrest top prefix. simpl.
    by rewrite IHn, IHrest, fmap_app. }
  split; [apply (node_mut P P0) | apply (fields_mut P P0)]; try done.
  all: intros fs IH key; simpl; apply IH.
Qed.

Lemma leaves_defaults (fs : fields) :
  leaves (defaults_fields fs) = prod_map id apply_default <$> leaves fs.
Proof. apply leaves_map_mut. Qed.

Section LoadFacts.

Variable coerce : basic → value → option value.

Lemma unmarshal_leaves_mut (merged : gmap string value) :
  (∀ (n : node) (key : string),
     leaves_node key (unmarshal_node coerce merged key n).1
     = decoded coerce merged <$> leaves_node key n ∧
     (unmarshal_node coerce merged key n).2
     = forallb (decodes coerce merged) (leaves_node key n)) ∧
  (∀ (fs : fields) (top : bool) (prefix : string),
     leaves_fields top prefix (unmarshal_fields coerce merged top prefix fs).1
     = decoded coerce merged <$> leaves_fields top prefix fs ∧
     (unmarshal_fields coerce merged top prefix fs).2
     = forallb (decodes coerce merged) (leaves_fields top prefix fs)).
Proof.
  set (P := fun n => ∀ key : string,
     leaves_node key (unmarshal_node coerce merged key n).1
     = decoded coerce merged <$> leaves_node key n ∧
     (unmarshal_node coerce merged key n).2
     = forallb (decodes coerce merged) (leaves_node key n)).
  set (P0 := fun fs => ∀ (top : bool) (prefix : string),
     leaves_fields top prefix (unmarshal_fields coerce merged top prefix fs).1
     = decoded coerce merged <$> leaves_fields top prefix fs ∧
     (unmarshal_fields coerce merged top prefix fs).2
     = forallb (decodes coerce merged) (leaves_fields top prefix fs)).
  assert (Hleaf : ∀ lf, P (Leaf lf)).
  { intros lf key. unfold decoded, decodes. simpl.
    destruct (unmarshal_leaf coerce merged key lf) as [lf' ok]. simpl.
    by rewrite andb_true_r. }
  assert (Hstruct : ∀ fs, P0 fs → P (Struct fs)).
  { intros fs IH key. simpl. specialize (IH false key).
    destruct (unmarshal_fields coerce merged false key fs) as [fs' ok]. done. }
  assert (Hcons : ∀ name n, P n → ∀ rest, P0 rest → P0 (FCons name n rest)).
  { intros name n IHn rest IHrest top prefix. simpl.
    specialize (IHn (enkey top prefix name)). specialize (IHrest top prefix).
    destruct (unmarshal_node coerce merged (enkey top prefix name) n) as [n' ok1].
    destruct (unmarshal_fields coerce merged top prefix rest) as [rest' ok2].
    simpl in *. destruct IHn as [-> ->]. destruct IHrest as [-> ->].
    by rewrite fmap_app, forallb_app. }
  split; [apply (node_mut P P0) | apply (fields_mut P P0)]; done.
Qed.


Lemma unmarshal_leaf_again (merged : gmap string value) (key : string)
    (lf : leaf) :
  unmarshal_leaf coerce merged key
    (apply_default (unmarshal_leaf coerce merged key (apply_default lf)).1)
  = unmarshal_leaf coerce merged key (apply_default lf).
Proof.
  unfold unmarshal_leaf, apply_default.
  destruct lf as [k d c]. simpl.
  destruct (merged !! key) as [raw|]; destruct d as [d|]; simpl; try done.
  all: destruct (coerce k raw) as [x|] eqn:Hc; simpl; rewrite ?Hc; done.
Qed.

(** Applying the defaults and decoding a second time changes nothing. *)
Lemma unmarshal_again_mut (merged : gmap string value) :
  (∀ (n : node) (key : string),
     unmarshal_node coerce merged key
       (map_node apply_default
          (unmarshal_node coerce merged key (map_node apply_default n)).1)
     = unmarshal_node coerce merged key (map_node apply_default n)) ∧
  (∀ (fs : fields) (top : bool) (prefix : string),
     unmarshal_fields coerce merged top prefix
       (map_fields apply_default
          (unmarshal_fields coerce merged top prefix
             (map_fields apply_default fs)).1)
     = unmarshal_fields coerce merged top prefix (map_fields apply_default fs)).
Proof.
  set (P := fun n => ∀ key : string,
     unmarshal_node coerce merged key
       (map_node apply_default
          (unmarshal_node coerce merged key (map_node apply_default n)).1)
     = unmarshal_node coerce merged key (map_node apply_default n)).
  set (P0 := fun fs => ∀ (top : bool) (prefix : string),
     unmarshal_fields coerce merged top prefix
       (map_fields apply_default
          (unmarshal_fields coerce merged top prefix
             (map_fields apply_default fs)).1)
     = unmarshal_fields coerce merged top prefix (map_fields apply_default fs)).
  assert (Hleaf : ∀ lf, P (Leaf lf)).
  { intros lf key. simpl.
    pose proof (unmarshal_leaf_again merged key lf) as H.
    destruct (unmarshal_leaf coerce merged key (apply_default lf)) as [lf1 ok1].
    simpl in *. by rewrite H. }
  assert (Hstruct : ∀ fs, P0 fs → P (Struct fs)).
  { intros fs IH key. simpl. specialize (IH false key).
    destruct (unmarshal_fields coerce merged false key
                (map_fields apply_default fs)) as [fs1 ok1].
    simpl in *. by rewrite IH. }
  assert (Hcons : ∀ name n, P n → ∀ rest, P0 rest → P0 (FCons name n rest)).
  { intros name n IHn rest IHrest top prefix. simpl.
    specialize (IHn (enkey top prefix name)). specialize (IHrest top prefix).
    destruct (unmarshal_node coerce merged (enkey top prefix name)
                (map_node apply_default n)) as [n1 ok1].
    destruct (unmarshal_fields coerce merged top prefix
                (map_fields apply_default rest)) as [rest1 ok2].
    simpl in *. by rewrite IHn, IHrest. }
  split; [apply (node_mut P P0) | apply (fields_mut P P0)]; done.
Qed.

End LoadFacts.

(** ** The shape of a [Load] on a valid target *)

Lemma target_fields_ptr (config : param) (fs : fields) :
  target_fields config = Some fs → config = ptr_to fs.
Proof.
  destruct config as [[?|? ?| |[?|? ?| |?]]|]; simpl; try done.
  by intros [= ->].
Qed.

Lemma lkind_apply_default (lf : leaf) : lkind (apply_default lf) = lkind lf.
Proof. unfold apply_default. by destruct (ldefault lf). Qed.


Section LoadShape.

Variable coerce : basic → value → option value.

Lemma Load_invalid (l : Loader) (w : World) (config : param) :
  target_fields config = None →
  ∃ k b, Load coerce l w config =
    {| lr_err := Some (InvalidTargetError k b); lr_loader := l;
       lr_target := config; lr_io := [] |}.
Proof.
  intros H. destruct (verify_invalid config H) as (k & b & Hv).
  exists k, b. unfold Load. by rewrite Hv.
Qed.

Lemma Load_parse_failure (l : Loader) (w : World) (fs : fields)
    (path : string) :
  configFile (v l) w = Some path → files w !! path = Some Malformed →
  ∃ io, Load coerce l w (ptr_to fs) =
    {| lr_err := Some (ConfigFileParseError path);
       lr_loader := {| v := AutomaticEnv (v l) |};
       lr_target := ptr_to fs; lr_io := io |}.
Proof.
  intros Hc Hf.
  destruct (ReadInConfig_malformed (AutomaticEnv (v l)) w path Hc Hf)
    as [io Hr].
  exists io. unfold Load. rewrite verify_valid, Hr. done.
Qed.

(** Past the file, [Load] registers the flattened keys, applies the
    defaults and decodes the merged values. *)
Lemma Load_continue (l : Loader) (w : World) (fs : fields)
    (rerr : option read_error) (v2 : Viper) (io1 : list io_event) :
  ReadInConfig (AutomaticEnv (v l)) w = (rerr, v2, io1) →
  (∀ p, rerr ≠ Some (ParseFailure p)) →
  ∃ e : gmap string string,
    (∀ k, e !! k = if decide (k ∈ (leaves fs).*1)
                   then Some (envName v2 k) else env v2 !! k) ∧
    Load coerce l w (ptr_to fs) =
      {| lr_err :=
           if (unmarshal_fields coerce (Merge (set_env e v2) w) true ""
                 (defaults_fields fs)).2
           then None else Some DecodeError;
         lr_loader := {| v := set_env e v2 |};
         lr_target :=
           ptr_to (unmarshal_fields coerce (Merge (set_env e v2) w) true ""
                     (defaults_fields fs)).1;
         lr_io := io1 ++ merge_io (set_env e v2) |}.
Proof.
  intros Hr Hne.
  destruct (getFlattenedStructKeys_leaves fs) as (keys & Hk & _ & Hin).
  destruct (bindKeys_env keys v2) as (e & He & Hl).
  exists e. split.
  - intros k. rewrite Hl.
    destruct (decide (k ∈ keys)) as [H1|H1];
      destruct (decide (k ∈ (leaves fs).*1)) as [H2|H2]; try done.
    + by apply Hin in H1.
    + by apply Hin in H2.
  - unfold Load. rewrite verify_valid, Hr.
    assert (Hrest :
      match getFlattenedStructKeys (ptr_to fs) with
      | Ok configKeys =>
          match bindKeys configKeys v2 with
          | Ok v3 =>
              let
              '(uerr, config2, io2) :=
               Unmarshal coerce v3 w (SetDefaults (ptr_to fs)) in
               {| lr_err := uerr; lr_loader := {| v := v3 |};
                  lr_target := config2; lr_io := io1 ++ io2 |}
          | Err _ =>
              {| lr_err := Some EnvironmentBindError;
                 lr_loader := {| v := v2 |}; lr_target := ptr_to fs;
                 lr_io := io1 |}
          end
      | Err _ =>
          {| lr_err := Some SchemaDecodeError; lr_loader := {| v := v2 |};
             lr_target := ptr_to fs; lr_io := io1 |}
      end =
      {| lr_err :=
           if (unmarshal_fields coerce (Merge (set_env e v2) w) true ""
                 (defaults_fields fs)).2
           then None else Some DecodeError;
         lr_loader := {| v := set_env e v2 |};
         lr_target :=
           ptr_to (unmarshal_fields coerce (Merge (set_env e v2) w) true ""
                     (defaults_fields fs)).1;
         lr_io := io1 ++ merge_io (set_env e v2) |}).
    { rewrite Hk, He. unfold SetDefaults, ptr_to, Unmarshal.
      fold (defaults_fields fs).
      destruct (unmarshal_fields coerce (Merge (set_env e v2) w) true ""
                  (defaults_fields fs)) as [fs' ok]. done. }
    destruct rerr as [[|p]|]; [exact Hrest | by destruct (Hne p) | exact Hrest].
Qed.

(** The merged value of a registered leaf key: the environment's when
    the variable is set, the file's otherwise. *)
Lemma Merge_registered (e : gmap string string) (v2 : Viper) (w : World)
    (keys : list string) (k : string) :
  (∀ k, e !! k = if decide (k ∈ keys)
                 then Some (envName v2 k) else env v2 !! k) →
  k ∈ keys →
  Merge (set_env e v2) w !! k =
    match environ w !! envName v2 k with
    | Some s => Some (Scalar s)
    | None => config v2 !! k
    end.
Proof.
  intros He Hin. rewrite Merge_lookup. cbn [env set_env config].
  rewrite He, decide_True by done. done.
Qed.

Lemma leaves_loaded (merged : gmap string value) (fs : fields) :
  leaves (unmarshal_fields coerce merged true "" (defaults_fields fs)).1
  = (fun kl => decoded coerce merged (prod_map id apply_default kl))
      <$> leaves fs.
Proof.
  unfold leaves.
  destruct (unmarshal_leaves_mut coerce merged) as [_ H].
  destruct (H (defaults_fields fs) true "") as [-> _].
  fold (leaves (defaults_fields fs)). rewrite leaves_defaults.
  by rewrite <- list_fmap_compose.
Qed.

Lemma loaded_ok (merged : gmap string value) (fs : fields) :
  (unmarshal_fields coerce merged true "" (defaults_fields fs)).2 = true ↔
  ∀ k lf, (k, lf) ∈ leaves fs →
          decodes coerce merged (k, apply_default lf) = true.
Proof.
  destruct (unmarshal_leaves_mut coerce merged) as [_ H].
  destruct (H (defaults_fields fs) true "") as [_ ->].
  fold (leaves (defaults_fields fs)). rewrite leaves_defaults.
  rewrite forallb_forall. split.
  - intros Hall k lf Hin. apply Hall. apply list_elem_of_In.
    apply list_elem_of_fmap. exists (k, lf). done.
  - intros Hall [k lf'] Hin. apply list_elem_of_In in Hin.
    apply list_elem_of_fmap in Hin as ([k0 lf] & Heq & Hin).
    simpl in Heq. injection Heq as -> ->. by apply Hall.
Qed.

Lemma leaves_loaded_keys (merged : gmap string value) (fs : fields) :
  (leaves (unmarshal_fields coerce merged true "" (defaults_fields fs)).1).*1
  = (leaves fs).*1.
Proof.
  rewrite leaves_loaded, <- list_fmap_compose.
  apply list_fmap_ext. by intros i [k lf] _.
Qed.

End LoadShape.

(** ** Precedence of the sources *)

Section Precedence.

Variable coerce : basic → value → option value.




End Precedence.



(** The example scenario: no file and an empty environment give the
    default 8080; [APP_SERVER_PORT=9090] gives 9090, also over a file
    that sets 7070. *)
Example scenario_default :
  leaves <$> target_fields
    (lr_target (Load coerce_strict exampleLoader worldEmpty (ptr_to exampleSchema)))
  = Some [("server.port", MkLeaf BInt (Some (Scalar "8080")) (Scalar "8080"))].
Proof. reflexivity. Qed.

Example scenario_environment :
  leaves <$> target_fields
    (lr_target (Load coerce_strict exampleLoader worldFileEnv (ptr_to exampleSchema)))
  = Some [("server.port", MkLeaf BInt (Some (Scalar "8080")) (Scalar "9090"))].
Proof. reflexivity. Qed.

(** ** The two file outcomes *)

Section FileOutcomes.

Variable coerce : basic → value → option value.

(** C3: when no file of the configured name and type is in any search
    path, [Load] reports no file error and goes on with an empty File
    source: the keys are registered, and the call succeeds exactly when
    every value the environment supplies can be coerced; when the file
    found does not parse, [Load] returns [ConfigFileParseError] and the
    target is left as it was. *)
Theorem Load_not_found_vs_malformed (l : Loader) (w : World) (fs : fields) :
  (configFile (v l) w = None →
     config (v (lr_loader (Load coerce l w (ptr_to fs)))) = ∅ ∧
     (∀ path, lr_err (Load coerce l w (ptr_to fs))
              ≠ Some (ConfigFileParseError path)) ∧
     (∀ p, p ∈ (leaves fs).*1 →
           env (v (lr_loader (Load coerce l w (ptr_to fs)))) !! p
           = Some (envName (v l) p)) ∧
     (lr_err (Load coerce l w (ptr_to fs)) = None ↔
      ∀ p lf ev, (p, lf) ∈ leaves fs →
                 environ w !! envName (v l) p = Some ev →
                 is_Some (coerce (lkind lf) (Scalar ev)))) ∧
  (∀ path, configFile (v l) w = Some path →
           files w !! path = Some Malformed →
     lr_err (Load coerce l w (ptr_to fs)) = Some (ConfigFileParseError path) ∧
     lr_target (Load coerce l w (ptr_to fs)) = ptr_to fs).
Proof.
  split.
  - intros Hc.
    destruct (ReadInConfig_not_found (AutomaticEnv (v l)) w Hc) as [io Hr].
    destruct (Load_continue coerce l w fs _ _ io Hr) as (e & He & ->); [done|].
    cbn [lr_err lr_loader v env config set_env set_config].
    split; [done|]. split.
    { intros path.
      by destruct (unmarshal_fields coerce _ true "" (defaults_fields fs)).2. }
    split.
    { intros p Hp. by rewrite He, decide_True. }
    assert (Hm : ∀ p lf, (p, lf) ∈ leaves fs →
      decodes coerce (Merge (set_env e (set_config ∅ (AutomaticEnv (v l)))) w)
        (p, apply_default lf) =
      match environ w !! envName (v l) p with
      | Some ev => bool_decide (is_Some (coerce (lkind lf) (Scalar ev)))
      | None => true
      end).
    { intros p lf Hin. unfold decodes, unmarshal_leaf. simpl.
      assert (Hk : p ∈ (leaves fs).*1).
      { apply list_elem_of_fmap. exists (p, lf). done. }
      rewrite (Merge_registered e _ w _ p He Hk).
      change (envName (set_config ∅ (AutomaticEnv (v l))) p)
        with (envName (v l) p).
      destruct (environ w !! envName (v l) p) as [ev|]; simpl.
      - rewrite lkind_apply_default.
        destruct (coerce (lkind lf) (Scalar ev)) as [x|]; done.
      - by rewrite lookup_empty. }
    destruct (unmarshal_fields coerce _ true "" (defaults_fields fs)).2 eqn:Hok.
    + split; [|done]. intros _ p lf ev Hin Hev.
      pose proof (proj1 (loaded_ok coerce _ fs) Hok p lf Hin) as Hd.
      rewrite (Hm p lf Hin), Hev in Hd. by apply bool_decide_eq_true in Hd.
    + split; [done|]. intros Hall. exfalso.
      assert (Ht : (unmarshal_fields coerce
                      (Merge (set_env e (set_config ∅ (AutomaticEnv (v l)))) w)
                      true "" (defaults_fields fs)).2 = true).
      { apply loaded_ok. intros p lf Hin. rewrite (Hm p lf Hin).
        destruct (environ w !! envName (v l) p) as [ev|] eqn:Hev; [|done].
        apply bool_decide_eq_true. by eapply Hall. }
      congruence.
  - intros path Hc Hf.
    destruct (Load_parse_failure coerce l w fs path Hc Hf) as [io ->]. done.
Qed.

End FileOutcomes.

Lemma Load_not_found_vs_malformed_witness :
  (∀ path, lr_err (Load coerce_strict exampleLoader worldEnv (ptr_to exampleSchema))
           ≠ Some (ConfigFileParseError path)) ∧
  lr_err (Load coerce_strict exampleLoader worldMalformed (ptr_to exampleSchema))
    = Some (ConfigFileParseError "./config.yaml").
Proof.
  split.
  - apply (proj1 (Load_not_found_vs_malformed coerce_strict exampleLoader
                    worldEnv exampleSchema)).
    reflexivity.
  - apply (proj2 (Load_not_found_vs_malformed coerce_strict exampleLoader
                    worldMalformed exampleSchema) "./config.yaml");
      reflexivity.
Defined.

(** ** Environment variable names *)

Section EnvNames.

Variable coerce : basic → value → option value.


End EnvNames.


Example envName_example :
  envName (v exampleLoader) "server.port" = "APP_SERVER_PORT".
Proof. reflexivity. Qed.

(** ** The flattened keys *)

(** C6: the keys the flattener returns for a struct are exactly the
    dot-delimited paths of the leaf fields reached through nested structs,
    each once; whatever the leaves hold, the elements of a map or of a
    slice included, the keys are the same, so that such a field
    contributes its own path and nothing for its elements, and a struct
    without leaves gives no key. *)
Theorem getFlattenedStructKeys_leaf_paths (fs : fields) :
  ∃ keys, getFlattenedStructKeys (ptr_to fs) = Ok keys ∧ NoDup keys ∧
    (∀ p, p ∈ keys ↔ ∃ segs lf, leaf_path fs segs lf ∧ p = dotted segs) ∧
    (∀ (f : leaf → leaf) (keys' : list string),
       getFlattenedStructKeys (ptr_to (map_fields f fs)) = Ok keys' →
       ∀ p, p ∈ keys' ↔ p ∈ keys) ∧
    getFlattenedStructKeys (ptr_to FNil) = Ok [].
Proof.
  destruct (getFlattenedStructKeys_leaves fs) as (keys & Hk & Hnd & Hin).
  exists keys. split; [done|]. split; [done|]. split; [|split; [|reflexivity]].
  - intros p. rewrite Hin. split.
    + intros Hp. apply list_elem_of_fmap in Hp as ([k lf] & -> & Hp).
      destruct leaves_sound_mut as [_ Hs].
      destruct (Hs fs true "" k lf Hp) as (segs & Hpath & ->).
      exists segs, lf. done.
    + intros (segs & lf & Hpath & ->).
      apply list_elem_of_fmap. exists (dotted segs, lf). split; [done|].
      apply (leaves_complete fs segs lf Hpath true "").
  - intros f keys' Hk' p.
    destruct (getFlattenedStructKeys_leaves (map_fields f fs))
      as (keys2 & Hk2 & _ & Hin2).
    rewrite Hk2 in Hk'. injection Hk' as <-.
    rewrite Hin, Hin2. unfold leaves.
    destruct (leaves_map_mut f) as [_ ->].
    rewrite <- list_fmap_compose.
    assert (Heq : (fst ∘ prod_map id f) <$> leaves_fields true "" fs
                  = fst <$> leaves_fields true "" fs).
    { apply list_fmap_ext. by intros i [k lf] _. }
    by rewrite Heq.
Qed.

(** A map-typed and a slice-typed field with elements give one key each. *)
Example getFlattenedStructKeys_opaque :
  getFlattenedStructKeys
    (ptr_to (FCons "server"
               (Struct (FCons "port" (Leaf (MkLeaf BInt None (Scalar "0")))
                 (FCons "labels"
                    (Leaf (MkLeaf BMap None (MapOf [("x", "1"); ("y", "2")])))
                    FNil)))
            (FCons "tags" (Leaf (MkLeaf BSlice None (SliceOf ["a"; "b"]))) FNil)))
  = Ok ["server.labels"; "server.port"; "tags"].
Proof. reflexivity. Qed.

(** ** Idempotence *)

(** C8: registering a Key Path twice leaves the resolver as registering it
    once does, so the values merged afterwards, for this and for every
    other Key Path, are the same; the binding loop of [Load] is likewise
    unaffected by a repeated key. *)
Theorem BindEnv_idempotent (p : string) (vp : Viper) :
  ∃ once twice,
    BindEnv p vp = Ok once ∧ BindEnv p once = Ok twice ∧
    twice = once ∧
    (∀ w q, Merge twice w !! q = Merge once w !! q) ∧
    (∀ keys, bindKeys (p :: p :: keys) vp = bindKeys (p :: keys) vp).
Proof.
  assert (Hagain :
    BindEnv p (set_env (<[p := envName vp p]> (env vp)) vp)
    = Ok (set_env (<[p := envName vp p]> (env vp)) vp)).
  { unfold BindEnv. cbn [env set_env]. rewrite envName_set_env.
    by rewrite insert_insert_eq, set_env_set_env. }
  exists (set_env (<[p := envName vp p]> (env vp)) vp),
         (set_env (<[p := envName vp p]> (env vp)) vp).
  split; [done|]. split; [exact Hagain|]. split; [done|]. split; [done|].
  intros keys. cbn [bindKeys].
  change (BindEnv p vp) with (Ok (set_env (<[p := envName vp p]> (env vp)) vp)).
  cbn beta iota. by rewrite Hagain.
Qed.

Section Idempotence.

Variable coerce : basic → value → option value.

Lemma Load_again_valid (l : Loader) (w : World) (fs : fields) :
  Load coerce (lr_loader (Load coerce l w (ptr_to fs))) w
    (lr_target (Load coerce l w (ptr_to fs)))
  = {| lr_err := lr_err (Load coerce l w (ptr_to fs));
       lr_loader := lr_loader (Load coerce l w (ptr_to fs));
       lr_target := lr_target (Load coerce l w (ptr_to fs));
       lr_io := lr_io (Load coerce (lr_loader (Load coerce l w (ptr_to fs))) w
                         (lr_target (Load coerce l w (ptr_to fs)))) |}.
Proof.
  destruct (configFile_cases (v l) w)
    as [Hc | [(path & kv & Hc & Hf) | (path & Hc & Hf)]].
  - destruct (ReadInConfig_not_found (AutomaticEnv (v l)) w Hc) as [io Hr].
    destruct (Load_continue coerce l w fs _ _ io Hr) as (e & He & ->); [done|].
    cbn [lr_err lr_loader lr_target lr_io].
    set (v3 := set_env e (set_config ∅ (AutomaticEnv (v l)))).
    set (fs1 := (unmarshal_fields coerce (Merge v3 w) true ""
                   (defaults_fields fs)).1).
    destruct (ReadInConfig_not_found (AutomaticEnv v3) w Hc) as [io' Hr'].
    destruct (Load_continue coerce {| v := v3 |} w fs1 _ _ io' Hr')
      as (e' & He' & HL); [done|].
    assert (Hee : e' = e).
    { apply map_eq. intros k. rewrite He'. unfold fs1.
      rewrite leaves_loaded_keys.
      destruct (decide (k ∈ (leaves fs).*1)) as [Hk|Hk]; [|reflexivity].
      rewrite He, decide_True by done. reflexivity. }
    subst e'. rewrite HL. cbn [lr_io].
    change (set_env e (set_config ∅ (AutomaticEnv v3))) with v3.
    unfold fs1, defaults_fields.
    destruct (unmarshal_again_mut coerce (Merge v3 w)) as [_ Hag].
    by rewrite Hag.
  - destruct (ReadInConfig_found (AutomaticEnv (v l)) w path kv Hc Hf)
      as [io Hr].
    destruct (Load_continue coerce l w fs _ _ io Hr) as (e & He & ->); [done|].
    cbn [lr_err lr_loader lr_target lr_io].
    set (v3 := set_env e (set_config kv (AutomaticEnv (v l)))).
    set (fs1 := (unmarshal_fields coerce (Merge v3 w) true ""
                   (defaults_fields fs)).1).
    destruct (ReadInConfig_found (AutomaticEnv v3) w path kv Hc Hf)
      as [io' Hr'].
    destruct (Load_continue coerce {| v := v3 |} w fs1 _ _ io' Hr')
      as (e' & He' & HL); [done|].
    assert (Hee : e' = e).
    { apply map_eq. intros k. rewrite He'. unfold fs1.
      rewrite leaves_loaded_keys.
      destruct (decide (k ∈ (leaves fs).*1)) as [Hk|Hk]; [|reflexivity].
      rewrite He, decide_True by done. reflexivity. }
    subst e'. rewrite HL. cbn [lr_io].
    change (set_env e (set_config kv (AutomaticEnv v3))) with v3.
    unfold fs1, defaults_fields.
    destruct (unmarshal_again_mut coerce (Merge v3 w)) as [_ Hag].
    by rewrite Hag.
  - destruct (Load_parse_failure coerce l w fs path Hc Hf) as [io ->].
    cbn [lr_err lr_loader lr_target lr_io].
    destruct (Load_parse_failure coerce {| v := AutomaticEnv (v l) |} w fs
                path Hc Hf) as [io' ->].
    done.
Qed.

(** C7: a second [Load] on the same loader and target, with the files
    and the environment unchanged, returns the same error status as the
    first and leaves the target, and the loader, as the first left
    them. *)
Theorem Load_idempotent (l : Loader) (w : World) (config : param) :
  lr_err (Load coerce (lr_loader (Load coerce l w config)) w
            (lr_target (Load coerce l w config)))
    = lr_err (Load coerce l w config) ∧
  lr_target (Load coerce (lr_loader (Load coerce l w config)) w
               (lr_target (Load coerce l w config)))
    = lr_target (Load coerce l w config) ∧
  lr_loader (Load coerce (lr_loader (Load coerce l w config)) w
               (lr_target (Load coerce l w config)))
    = lr_loader (Load coerce l w config).
Proof.
  destruct (target_fields config) as [fs|] eqn:Ht.
  - apply target_fields_ptr in Ht as ->.
    rewrite Load_again_valid. done.
  - destruct (Load_invalid coerce l w config Ht) as (k & b & H).
    rewrite H. cbn [lr_err lr_loader lr_target]. rewrite H. done.
Qed.

End Idempotence.
End ConfigProps.

(** * Properties of package help *)
Module HelpProps.
Import Help.

(** ** Strings *)

Lemma app_cons (c : ascii) (a b : string) :
  String c a +:+ b = String c (a +:+ b).
Proof. reflexivity. Qed.

Lemma app_nil_r (a : string) : a +:+ EmptyString = a.
Proof. induction a as [|c a IH]; [done|]. by rewrite app_cons, IH. Qed.

Lemma app_assoc (a b c : string) : (a +:+ b) +:+ c = a +:+ (b +:+ c).
Proof. induction a as [|x a IH]; [done|]. by rewrite !app_cons, IH. Qed.

Lemma length_app (a b : string) :
  String.length (a +:+ b) = String.length a + String.length b.
Proof. induction a as [|x a IH]; [done|]. rewrite app_cons. simpl. by rewrite IH. Qed.

Lemma length_Repeat (n : nat) : String.length (Repeat n) = n.
Proof. induction n as [|n IH]; simpl; [done | by rewrite IH]. Qed.

Lemma TrimSuffix_app (x suffix : string) : TrimSuffix (x +:+ suffix) suffix = x.
Proof.
  induction x as [|c x IH].
  - destruct suffix as [|d suffix]; [done|].
    change (EmptyString +:+ String d suffix) with (String d suffix).
    cbn [TrimSuffix]. by rewrite decide_True.
  - rewrite app_cons. cbn [TrimSuffix]. rewrite decide_False; [by rewrite IH|].
    intros Heq. apply (f_equal String.length) in Heq.
    simpl in Heq. rewrite length_app in Heq. lia.
Qed.

Lemma strip_prefix_app (p l : string) : strip_prefix p (p +:+ l) = Some l.
Proof.
  induction p as [|c p IH]; [done|].
  rewrite app_cons. cbn [strip_prefix]. by rewrite decide_True.
Qed.

Lemma TrimPrefix_app (p l : string) : TrimPrefix (p +:+ l) p = l.
Proof. unfold TrimPrefix. by rewrite strip_prefix_app. Qed.

Lemma TrimPrefix_empty (l : string) : TrimPrefix l EmptyString = l.
Proof. reflexivity. Qed.

(** ** Lines *)

Lemma Split_nonempty (s : string) : Split s ≠ [].
Proof.
  destruct s as [|c s]; [done|]. cbn [Split].
  case_decide; [done|]. by destruct (Split s).
Qed.

Lemma Join_Split (s : string) : Join (Split s) = s.
Proof.
  induction s as [|c s IH]; [done|]. cbn [Split].
  case_decide as Hc.
  - subst c. pose proof (Split_nonempty s) as Hne.
    destruct (Split s) as [|l ls] eqn:Hs; [done|].
    change (Join (EmptyString :: l :: ls))
      with (EmptyString +:+ String newline (Join (l :: ls))).
    by rewrite IH.
  - pose proof (Split_nonempty s) as Hne.
    destruct (Split s) as [|l ls] eqn:Hs; [done|].
    destruct ls as [|l2 ls].
    + simpl in *. by rewrite IH.
    + change (Join (String c l :: l2 :: ls))
        with (String c l +:+ String newline (Join (l2 :: ls))).
      change (Join (l :: l2 :: ls))
        with (l +:+ String newline (Join (l2 :: ls))) in IH.
      by rewrite app_cons, IH.
Qed.

Lemma Split_no_newline (l : string) : no_newline l → Split l = [l].
Proof.
  induction l as [|c l IH]; [done|]. intros [Hc Hl].
  cbn [Split]. rewrite decide_False by done. by rewrite IH.
Qed.

Lemma Split_app_newline (l rest : string) :
  no_newline l → Split (l +:+ String newline rest) = l :: Split rest.
Proof.
  induction l as [|c l IH]; intros Hl.
  - change (EmptyString +:+ String newline rest) with (String newline rest).
    cbn [Split]. by rewrite decide_True.
  - destruct Hl as [Hc Hl]. rewrite app_cons. cbn [Split].
    rewrite decide_False by done. by rewrite IH.
Qed.

Lemma Split_Join (lines : list string) :
  lines ≠ [] → Forall no_newline lines → Split (Join lines) = lines.
Proof.
  induction lines as [|l lines IH]; [done|]. intros _ Hall.
  inversion Hall as [|? ? Hl Hrest]; subst.
  destruct lines as [|l2 lines].
  - by apply Split_no_newline.
  - change (Join (l :: l2 :: lines))
      with (l +:+ String newline (Join (l2 :: lines))).
    rewrite Split_app_newline by done. by rewrite IH.
Qed.

Lemma Split_lines_no_newline (s : string) : Forall no_newline (Split s).
Proof.
  induction s as [|c s IH]; [by repeat constructor|]. cbn [Split].
  case_decide as Hc.
  - by constructor.
  - destruct (Split s) as [|l ls]; [by repeat constructor|].
    inversion IH; subst. by repeat constructor.
Qed.

(** ** Indentation of a line *)

Lemma Repeat_add (a b : nat) : Repeat (a + b) = Repeat a +:+ Repeat b.
Proof. induction a as [|a IH]; [done|]. simpl. by rewrite IH. Qed.

Lemma TrimLeft_Repeat (k : nat) (l : string) :
  TrimLeft (Repeat k +:+ l) = TrimLeft l.
Proof.
  induction k as [|k IH]; [done|].
  simpl Repeat. rewrite app_cons. cbn [TrimLeft]. by rewrite decide_True.
Qed.

Lemma leading_spaces (l : string) :
  ∃ n : nat, l = Repeat n +:+ TrimLeft l ∧ indentOf l = Z.of_nat n.
Proof.
  induction l as [|c l (n & Hl & Hn)].
  - exists 0. done.
  - destruct (decide (c = space)) as [->|Hc].
    + exists (S n). unfold indentOf in *. cbn [TrimLeft].
      rewrite decide_True by done. split.
      * simpl Repeat. rewrite app_cons. by rewrite <- Hl.
      * simpl String.length. lia.
    + exists 0. unfold indentOf. cbn [TrimLeft]. rewrite decide_False by done.
      split; [done | lia].
Qed.

Lemma indentOf_nonneg (l : string) : (0 ≤ indentOf l)%Z.
Proof. destruct (leading_spaces l) as (n & _ & ->). lia. Qed.

Lemma indentOf_Repeat (k : nat) (l : string) :
  indentOf (Repeat k +:+ l) = (Z.of_nat k + indentOf l)%Z.
Proof.
  unfold indentOf. rewrite TrimLeft_Repeat, length_app, length_Repeat. lia.
Qed.

(** A line indented by at least [m] starts with [m] spaces. *)
Lemma indented_line (l : string) (m : nat) :
  (Z.of_nat m ≤ indentOf l)%Z →
  ∃ l', l = Repeat m +:+ l' ∧ indentOf l' = (indentOf l - Z.of_nat m)%Z
        ∧ TrimLeft l' = TrimLeft l.
Proof.
  intros Hm. destruct (leading_spaces l) as (n & Hl & Hn).
  assert (Ht : TrimLeft (TrimLeft l) = TrimLeft l).
  { rewrite Hl at 2. by rewrite TrimLeft_Repeat. }
  exists (Repeat (n - m) +:+ TrimLeft l). split; [|split].
  - rewrite <- app_assoc, <- Repeat_add.
    replace (m + (n - m)) with n by lia. done.
  - rewrite indentOf_Repeat. unfold indentOf at 1.
    rewrite Ht. lia.
  - by rewrite TrimLeft_Repeat.
Qed.

(** ** The least indentation *)

Lemma minIndent_loop_from (lines : list string) :
  ∀ acc : Z, (0 ≤ acc)%Z →
    let r := minIndent_loop lines acc in
    (0 ≤ r ≤ acc)%Z ∧
    (∀ l, l ∈ lines → l ≠ EmptyString → (r ≤ indentOf l)%Z) ∧
    (r = acc ∨ ∃ l, l ∈ lines ∧ l ≠ EmptyString ∧ indentOf l = r).
Proof.
  induction lines as [|l lines IH]; intros acc Hacc; cbn zeta.
  - simpl. split; [lia|]. split; [|by left].
    intros l Hin. by apply elem_of_nil in Hin.
  - cbn [minIndent_loop].
    destruct (decide (String.length l = 0)) as [Hlen|Hlen].
    + destruct (IH acc Hacc) as (Hr & Hle & Hex). split; [done|]. split.
      * intros l0 Hin Hne. apply elem_of_cons in Hin as [->|Hin].
        -- destruct l; [done | discriminate Hlen].
        -- by apply Hle.
      * destruct Hex as [?|(l0 & Hin & Hne & Hl0)]; [by left|].
        right. exists l0. split; [by right | done].
    + assert (Hlne : l ≠ EmptyString) by (intros ->; done).
      pose proof (indentOf_nonneg l) as Hnn.
      destruct (decide (acc = (-1)%Z ∨ (indentOf l < acc)%Z)) as [Hlt|Hge].
      * destruct Hlt as [?|Hlt]; [lia|].
        destruct (IH (indentOf l) Hnn) as (Hr & Hle & Hex).
        split; [lia|]. split.
        -- intros l0 Hin Hne. apply elem_of_cons in Hin as [->|Hin];
             [lia | by apply Hle].
        -- right. destruct Hex as [Heq|(l0 & Hin & Hne & Hl0)].
           ++ exists l. split; [by left | done].
           ++ exists l0. split; [by right | done].
      * destruct (IH acc Hacc) as (Hr & Hle & Hex).
        split; [done|]. split.
        -- intros l0 Hin Hne. apply elem_of_cons in Hin as [->|Hin];
             [lia | by apply Hle].
        -- destruct Hex as [?|(l0 & Hin & Hne & Hl0)]; [by left|].
           right. exists l0. split; [by right | done].
Qed.

(** What the first loop of [dedent] computes: [-1] when every line is
    empty, otherwise the least indentation of the lines that are not. *)
Lemma minIndent_spec (lines : list string) :
  (minIndent_loop lines (-1) = (-1)%Z ∧ ∀ l, l ∈ lines → l = EmptyString) ∨
  ((∃ l, l ∈ lines ∧ l ≠ EmptyString
         ∧ indentOf l = minIndent_loop lines (-1)) ∧
   (∀ l, l ∈ lines → l ≠ EmptyString →
         (minIndent_loop lines (-1) ≤ indentOf l)%Z)).
Proof.
  induction lines as [|l lines IH].
  - left. split; [done|]. intros l Hin. by apply elem_of_nil in Hin.
  - cbn [minIndent_loop].
    destruct (decide (String.length l = 0)) as [Hlen|Hlen].
    + assert (l = EmptyString) as -> by (destruct l; [done | discriminate Hlen]).
      destruct IH as [[Hr Hall]|[(l0 & Hin & Hne & Hl0) Hle]].
      * left. split; [done|]. intros l0 Hin.
        apply elem_of_cons in Hin as [->|Hin]; [done | by apply Hall].
      * right. split.
        -- exists l0. split; [by right | done].
        -- intros l1 Hin1 Hne1. apply elem_of_cons in Hin1 as [->|Hin1];
             [done | by apply Hle].
    + assert (Hlne : l ≠ EmptyString) by (intros ->; done).
      rewrite decide_True by (by left). right.
      destruct (minIndent_loop_from lines (indentOf l) (indentOf_nonneg l))
        as (Hr & Hle & Hex).
      split.
      * destruct Hex as [Heq|(l0 & Hin & Hne & Hl0)].
        -- exists l. split; [by left | done].
        -- exists l0. split; [by right | done].
      * intros l0 Hin Hne. apply elem_of_cons in Hin as [->|Hin];
          [lia | by apply Hle].
Qed.

(** ** The lines of a dedented text *)

Lemma dedent_write_Join (lines : list string) (m : Z) :
  lines ≠ [] →
  ∀ buf, dedent_write lines m buf =
    buf +:+ Join ((fun l => TrimPrefix l (Repeat (Z.to_nat m))) <$> lines)
        +:+ String newline EmptyString.
Proof.
  induction lines as [|l lines IH]; [done|]. intros _ buf.
  cbn [dedent_write]. destruct lines as [|l2 lines].
  - done.
  - rewrite IH by done. rewrite !fmap_cons.
    change (Join (?a :: ?b :: ?c)) with (a +:+ String newline (Join (b :: c))).
    rewrite !app_assoc. do 2 f_equal.
Qed.

Lemma dedent_positive (s : string) :
  (0 < minIndent_loop (Split s) (-1))%Z →
  dedent s =
    Join ((fun l => TrimPrefix l (Repeat (Z.to_nat (minIndent_loop (Split s) (-1)))))
            <$> Split s).
Proof.
  intros Hpos. unfold dedent. cbn zeta. rewrite decide_False by lia.
  rewrite dedent_write_Join by apply Split_nonempty.
  change (EmptyString +:+ ?x) with x. apply TrimSuffix_app.
Qed.

Lemma no_newline_strip (p l rest : string) :
  no_newline l → strip_prefix p l = Some rest → no_newline rest.
Proof.
  revert l. induction p as [|a p IH]; intros l Hl; cbn [strip_prefix].
  - by intros [= <-].
  - destruct l as [|b l]; [done|]. destruct Hl as [_ Hl].
    case_decide; [by apply IH | done].
Qed.

Lemma no_newline_TrimPrefix (l p : string) :
  no_newline l → no_newline (TrimPrefix l p).
Proof.
  intros Hl. unfold TrimPrefix.
  destruct (strip_prefix p l) as [rest|] eqn:Hs; [|done].
  by eapply no_newline_strip.
Qed.

Lemma TrimPrefix_of_empty (p : string) : TrimPrefix EmptyString p = EmptyString.
Proof. by destruct p. Qed.

Lemma dedent_lines_rel (s : string) :
  ((∀ l, l ∈ Split s → l = EmptyString) ∧ dedent s = s) ∨
  ∃ m : nat,
    (∃ l, l ∈ Split s ∧ l ≠ EmptyString ∧ indentOf l = Z.of_nat m) ∧
    (∀ l, l ∈ Split s → l ≠ EmptyString → (Z.of_nat m ≤ indentOf l)%Z) ∧
    Forall2 (dedented m) (Split s) (Split (dedent s)).
Proof.
  destruct (minIndent_spec (Split s)) as [[Hr Hall]|[(l0 & Hin0 & Hne0 & Hl0) Hle]].
  - left. split; [done|]. unfold dedent. cbn zeta. rewrite Hr. done.
  - right. pose proof (indentOf_nonneg l0) as Hnn.
    exists (Z.to_nat (minIndent_loop (Split s) (-1))).
    rewrite Z2Nat.id by lia. split; [eauto|]. split; [done|].
    destruct (decide (minIndent_loop (Split s) (-1) ≤ 0)%Z) as [Hz|Hpos].
    + assert (Hd : dedent s = s).
      { unfold dedent. cbn zeta. by rewrite decide_True. }
      rewrite Hd. replace (minIndent_loop (Split s) (-1)) with 0%Z by lia.
      apply Forall_Forall2_diag, Forall_forall. intros l _.
      destruct (decide (l = EmptyString)) as [->|Hne]; [by left | by right].
    + rewrite dedent_positive by lia.
      rewrite Split_Join.
      * apply Forall2_fmap_r, Forall_Forall2_diag, Forall_forall.
        intros l Hin. destruct (decide (l = EmptyString)) as [->|Hne].
        -- left. split; [done | apply TrimPrefix_of_empty].
        -- right. split; [done|].
           destruct (indented_line l (Z.to_nat (minIndent_loop (Split s) (-1))))
             as (l' & Hl & _).
           { rewrite Z2Nat.id by lia. by apply Hle. }
           rewrite Hl at 2. by rewrite TrimPrefix_app.
      * pose proof (Split_nonempty s). by destruct (Split s).
      * apply Forall_fmap, Forall_forall. intros l Hin. simpl.
        apply no_newline_TrimPrefix.
        pose proof (Split_lines_no_newline s) as Hall.
        by eapply Forall_forall in Hall.
Qed.

(** X1: [dedent] leaves a text whose lines are all empty as it is;
    otherwise it takes the least indentation among the lines that are not
    empty and removes that many leading spaces from each of them, keeping
    the empty lines and the number of lines. *)
Theorem dedent_removes_least_indentation (s : string) :
  ((∀ l, l ∈ Split s → l = EmptyString) ∧ dedent s = s) ∨
  ∃ m : nat,
    (∃ l, l ∈ Split s ∧ l ≠ EmptyString ∧ indentOf l = Z.of_nat m) ∧
    (∀ l, l ∈ Split s → l ≠ EmptyString → (Z.of_nat m ≤ indentOf l)%Z) ∧
    length (Split (dedent s)) = length (Split s) ∧
    ∀ i l, Split s !! i = Some l →
      (l = EmptyString ∧ Split (dedent s) !! i = Some EmptyString) ∨
      (l ≠ EmptyString ∧ ∃ l', l = Repeat m +:+ l' ∧ Split (dedent s) !! i = Some l').
Proof.
  destruct (dedent_lines_rel s) as [?|(m & Hex & Hle & Hrel)]; [by left|].
  right. exists m. split; [done|]. split; [done|]. split.
  - symmetry. by eapply Forall2_length.
  - intros i l Hi.
    destruct (Forall2_lookup_l _ _ _ _ _ Hrel Hi) as (l' & Hi' & [[-> ->]|[Hne Hl]]).
    + by left.
    + right. split; [done|]. by exists l'.
Qed.

(** X2: [dedent] touches leading spaces only: line by line, what follows
    the leading spaces is the same before and after. *)
Theorem dedent_keeps_text (s : string) :
  TrimLeft <$> Split (dedent s) = TrimLeft <$> Split s.
Proof.
  destruct (dedent_lines_rel s) as [[_ ->]|(m & _ & _ & Hrel)]; [done|].
  induction Hrel as [|l l' ls ls' [[-> ->]|[_ Hl]] _ IH]; [done | |].
  - by rewrite !fmap_cons, IH.
  - rewrite !fmap_cons, IH. f_equal. rewrite Hl. by rewrite TrimLeft_Repeat.
Qed.

(** X3: when no line of the text is made of spaces only, a second
    [dedent] changes nothing. *)
Theorem dedent_idempotent (s : string) :
  (∀ l, l ∈ Split s → l ≠ EmptyString → TrimLeft l ≠ EmptyString) →
  dedent (dedent s) = dedent s.
Proof.
  intros Hcontent.
  destruct (dedent_lines_rel s) as [[_ Hd]|(m & (l0 & Hin0 & Hne0 & Hl0) & _ & Hrel)].
  { by rewrite !Hd. }
  apply list_elem_of_lookup in Hin0 as [i Hi].
  destruct (Forall2_lookup_l _ _ _ _ _ Hrel Hi) as (l0' & Hi' & [[-> _]|[_ Hl]]);
    [done|].
  assert (Ht : TrimLeft l0' = TrimLeft l0).
  { rewrite Hl. by rewrite TrimLeft_Repeat. }
  assert (Hne' : l0' ≠ EmptyString).
  { intros ->. apply (Hcontent l0); [by eapply list_elem_of_lookup_2 | done|].
    by rewrite <- Ht. }
  assert (Hz : indentOf l0' = 0%Z).
  { rewrite Hl, indentOf_Repeat in Hl0. lia. }
  assert (Hmin : (minIndent_loop (Split (dedent s)) (-1) ≤ 0)%Z).
  { destruct (minIndent_spec (Split (dedent s))) as [[-> _]|[_ Hle]]; [lia|].
    rewrite <- Hz. apply Hle; [by eapply list_elem_of_lookup_2 | done]. }
  unfold dedent at 1. cbn zeta. by rewrite decide_True.
Qed.

Lemma dedent_idempotent_witness :
  dedent (dedent ("    --help   Show help" +:+ String newline "      for command"))
  = dedent ("    --help   Show help" +:+ String newline "      for command").
Proof.
  apply dedent_idempotent.
  intros l Hin Hne. vm_compute in Hin.
  apply elem_of_cons in Hin as [->|Hin]; [discriminate|].
  apply elem_of_cons in Hin as [->|Hin]; [discriminate|].
  by apply elem_of_nil in Hin.
Defined.

(** ** The lines of an indented text *)

Lemma after_newlines_Join (p s : string) :
  ∀ q, ∃ l0 ls, Split s = l0 :: ls ∧
    q +:+ after_newlines p s = Join ((q +:+ l0) :: (String.append p <$> ls)).
Proof.
  induction s as [|c s IH]; intros q.
  - exists EmptyString, []. done.
  - cbn [Split after_newlines]. destruct (decide (c = newline)) as [->|Hc].
    + destruct (IH p) as (l & ls & Hs & Hj).
      exists EmptyString, (l :: ls). rewrite Hs. split; [done|].
      rewrite Hj. rewrite fmap_cons.
      change (Join (?a :: ?b :: ?c)) with (a +:+ String newline (Join (b :: c))).
      by rewrite app_nil_r.
    + destruct (IH (q +:+ String c EmptyString)) as (l & ls & Hs & Hj).
      exists (String c l), ls. rewrite Hs. split; [done|].
      rewrite app_assoc in Hj. rewrite !app_assoc in Hj.
      exact Hj.
Qed.

Lemma ReplaceLineStarts_Join (s p : string) :
  ReplaceLineStarts s p = Join (String.append p <$> Split s).
Proof.
  unfold ReplaceLineStarts.
  destruct (after_newlines_Join p s p) as (l & ls & -> & ->). done.
Qed.

Lemma no_newline_app (a b : string) :
  no_newline a → no_newline b → no_newline (a +:+ b).
Proof.
  induction a as [|c a IH]; [done|]. intros [Hc Ha] Hb.
  rewrite app_cons. split; [done | by apply IH].
Qed.

Lemma no_newline_Repeat (k : nat) : no_newline (Repeat k).
Proof. induction k as [|k IH]; [done|]. split; [done | exact IH]. Qed.

Lemma Split_prefixed (s p : string) :
  no_newline p →
  Split (Join (String.append p <$> Split s)) = String.append p <$> Split s.
Proof.
  intros Hp. apply Split_Join.
  - pose proof (Split_nonempty s). by destruct (Split s).
  - apply Forall_fmap, Forall_forall. intros l Hin. simpl.
    apply no_newline_app; [done|].
    pose proof (Split_lines_no_newline s) as Hall.
    by eapply Forall_forall in Hall.
Qed.

(** X4: [indent] returns a text of white space only as it is; in any other
    text it puts the prefix in front of every line, the empty ones and the
    one after a final newline included, and the number of lines stays. *)
Theorem indent_prefixes_every_line (s p : string) :
  (blank s = true → indent s p = s) ∧
  (blank s = false →
     indent s p = Join (String.append p <$> Split s) ∧
     (no_newline p → Split (indent s p) = String.append p <$> Split s)).
Proof.
  unfold indent. split; intros ->; [done|].
  rewrite ReplaceLineStarts_Join. split; [done|]. apply Split_prefixed.
Qed.

Lemma indent_prefixes_every_line_witness :
  indent ("--help" +:+ String newline "--file") "  "
    = Join (String.append "  " <$> Split ("--help" +:+ String newline "--file")) ∧
  (no_newline "  " →
   Split (indent ("--help" +:+ String newline "--file") "  ")
   = String.append "  " <$> Split ("--help" +:+ String newline "--file")).
Proof.
  apply (proj2 (indent_prefixes_every_line
                  ("--help" +:+ String newline "--file") "  ")).
  reflexivity.
Defined.

Lemma dedent_fixed_min (s : string) :
  dedent s = s → (minIndent_loop (Split s) (-1) ≤ 0)%Z.
Proof.
  intros Hd.
  destruct (dedent_lines_rel s) as [[Hall _]|(m & (l0 & Hin0 & Hne0 & Hl0) & Hle & Hrel)].
  - destruct (minIndent_spec (Split s)) as [[-> _]|[(l & Hin & Hne & _) _]]; [lia|].
    by destruct (Hne (Hall l Hin)).
  - rewrite Hd in Hrel.
    apply list_elem_of_lookup in Hin0 as [i Hi].
    destruct (Forall2_lookup_l _ _ _ _ _ Hrel Hi) as (l' & Hi' & [[-> _]|[_ Hl]]);
      [done|].
    rewrite Hi in Hi'. injection Hi' as <-.
    apply (f_equal String.length) in Hl. rewrite length_app, length_Repeat in Hl.
    assert (m = 0) as -> by lia.
    destruct (minIndent_spec (Split s)) as [[-> _]|[(l & Hin & Hne & Hlm) Hmin]]; [lia|].
    assert (Hin0 : l0 ∈ Split s) by (by eapply list_elem_of_lookup_2).
    specialize (Hmin l0 Hin0 Hne0). lia.
Qed.

(** X5: a text that [dedent] leaves as it is comes back from being
    indented by any number of spaces and dedented again. *)
Theorem dedent_indent_roundtrip (s : string) (k : nat) :
  dedent s = s → dedent (indent s (Repeat k)) = s.
Proof.
  intros Hd. pose proof (dedent_fixed_min s Hd) as Hmin.
  unfold indent. destruct (blank s); [done|].
  rewrite ReplaceLineStarts_Join.
  destruct k as [|k].
  { assert (Hid : String.append (Repeat 0) <$> Split s = Split s).
    { rewrite <- (list_fmap_id (Split s)) at 2. by apply list_fmap_ext. }
    by rewrite Hid, Join_Split. }
  set (lines' := String.append (Repeat (S k)) <$> Split s).
  assert (Hsplit : Split (Join lines') = lines').
  { apply Split_prefixed, no_newline_Repeat. }
  assert (Hzero : ∃ l, l ∈ Split s ∧ indentOf l = 0%Z).
  { destruct (minIndent_spec (Split s)) as [[_ Hall]|[(l & Hin & Hne & Hl) _]].
    - pose proof (Split_nonempty s) as Hne.
      destruct (Split s) as [|l ls] eqn:Hs; [done|].
      exists l. split; [by left|]. rewrite (Hall l); [done | by left].
    - exists l. split; [done|]. pose proof (indentOf_nonneg l). lia. }
  assert (Hk : minIndent_loop lines' (-1) = Z.of_nat (S k)).
  { destruct (minIndent_spec lines') as [[_ Hall]|[(l' & Hin' & Hne' & Hl') Hle]].
    - destruct Hzero as (l & Hin & _).
      assert (Hin' : Repeat (S k) +:+ l ∈ lines').
      { apply list_elem_of_fmap. by exists l. }
      apply Hall in Hin'. discriminate Hin'.
    - apply list_elem_of_fmap in Hin' as (l1 & -> & Hin1).
      rewrite indentOf_Repeat in Hl'.
      pose proof (indentOf_nonneg l1).
      destruct Hzero as (l & Hin & Hz).
      assert (Hin2 : Repeat (S k) +:+ l ∈ lines').
      { apply list_elem_of_fmap. by exists l. }
      apply Hle in Hin2; [|done]. rewrite indentOf_Repeat in Hin2. lia. }
  rewrite dedent_positive; rewrite Hsplit, Hk; [|lia].
  rewrite Nat2Z.id. unfold lines'. rewrite <- list_fmap_compose.
  assert (Hid : (λ l : string, TrimPrefix l (Repeat (S k))) ∘ String.append (Repeat (S k))
                <$> Split s = Split s).
  { rewrite <- (list_fmap_id (Split s)) at 2. apply list_fmap_ext.
    intros i l _. simpl. apply TrimPrefix_app. }
  by rewrite Hid, Join_Split.
Qed.

Lemma dedent_indent_roundtrip_witness :
  dedent (indent ("Usage:" +:+ String newline (String newline "  salt [flags]"))
            (Repeat 4))
  = "Usage:" +:+ String newline (String newline "  salt [flags]").
Proof. apply dedent_indent_roundtrip. reflexivity. Defined.

(** ** Padding *)

Lemma RuneCountInString_ascii (s : string) :
  all_ascii s → RuneCountInString s = String.length s.
Proof.
  induction s as [|c s IH]; [done|]. intros [Hc Hs].
  cbn [RuneCountInString]. unfold lead. rewrite decide_True by lia.
  simpl. by rewrite IH.
Qed.

(** X11: for a name of ASCII bytes and a padding below [fmt]'s limit,
    [rpad] is the name, then spaces up to the width [|padding|], then one
    space: a name no longer than the width gives a row prefix of exactly
    [|padding| + 1] bytes, so the descriptions line up. *)
Theorem rpad_ascii (s : string) (padding : Z) :
  all_ascii s → (Z.abs padding < 10000010)%Z →
  rpad s padding
    = s +:+ Repeat (Z.to_nat (Z.abs padding - Z.of_nat (String.length s)))
        +:+ String space EmptyString ∧
  Z.of_nat (String.length (rpad s padding))
    = (Z.max (Z.abs padding) (Z.of_nat (String.length s)) + 1)%Z.
Proof.
  intros Hs Hp. unfold rpad. cbn zeta. rewrite decide_False by lia.
  rewrite RuneCountInString_ascii by done. split; [done|].
  rewrite !length_app, length_Repeat. simpl. lia.
Qed.

Lemma rpad_ascii_witness :
  rpad "config" 11
    = "config" +:+ Repeat (Z.to_nat (Z.abs 11 - Z.of_nat (String.length "config")))
        +:+ String space EmptyString ∧
  Z.of_nat (String.length (rpad "config" 11))
    = (Z.max (Z.abs 11) (Z.of_nat (String.length "config")) + 1)%Z.
Proof.
  apply rpad_ascii; [|reflexivity].
  repeat split; vm_compute; lia.
Defined.

End HelpProps.

(** * Properties of package cmdx *)
Module CmdxProps.
Import Help Cmdx.

(** ** Usage *)

Lemma usage_rows_filter (subcommands : list Command) :
  usage_rows subcommands =
    (fun c => (OutOrStderr, "  " +:+ Name (Info c) +:+ nl))
      <$> filter (fun c => Hidden (Info c) = false) subcommands.
Proof.
  induction subcommands as [|c rest IH]; [done|].
  cbn [usage_rows]. rewrite filter_cons.
  destruct (Hidden (Info c)) eqn:Hh.
  - rewrite decide_False by done. exact IH.
  - rewrite decide_True by done. by rewrite fmap_cons, IH.
Qed.

(** X6: for a command that has subcommands the usage is the usage line,
    the heading and one row per subcommand that is not hidden, in order;
    the flags are not printed, even when every subcommand is hidden. *)
Theorem rootUsageFunc_with_subcommands (command : Command) :
  Commands command ≠ [] →
  rootUsageFunc command =
    [(OutOrStderr, "Usage:  " +:+ UseLine (Info command));
     (OutOrStderr, nl +:+ nl +:+ "Available commands:" +:+ nl)]
    ++ ((fun c => (OutOrStderr, "  " +:+ Name (Info c) +:+ nl))
          <$> filter (fun c => Hidden (Info c) = false) (Commands command)).
Proof.
  intros Hne. unfold rootUsageFunc. cbn zeta.
  rewrite decide_True by (destruct (Commands command); simpl; [done | lia]).
  by rewrite usage_rows_filter.
Qed.

Lemma rootUsageFunc_with_subcommands_witness :
  rootUsageFunc exampleRoot =
    [(OutOrStderr, "Usage:  " +:+ UseLine (Info exampleRoot));
     (OutOrStderr, nl +:+ nl +:+ "Available commands:" +:+ nl)]
    ++ ((fun c => (OutOrStderr, "  " +:+ Name (Info c) +:+ nl))
          <$> filter (fun c => Hidden (Info c) = false) (Commands exampleRoot)).
Proof. apply rootUsageFunc_with_subcommands. discriminate. Defined.

(** ** Grouping *)

Lemma other_rows_append (grp s : string) (m : gmap string (list string)) :
  other_rows (append_other grp s m) ≡ₚ other_rows m ++ [s].
Proof.
  unfold other_rows, append_other.
  destruct (m !! grp) as [old|] eqn:Hg; simpl.
  - rewrite <- (insert_delete_eq m).
    rewrite <- (insert_delete_id m grp old Hg) at 2.
    rewrite !map_to_list_insert by apply lookup_delete_eq.
    rewrite !fmap_cons. simpl.
    rewrite <- !app_assoc. apply Permutation_app_head, Permutation_app_comm.
  - rewrite map_to_list_insert by done. rewrite fmap_cons. simpl.
    apply Permutation_cons_append.
Qed.

Lemma Permutation_move (x : string) (A B C : list string) :
  x :: A ++ B ++ C ≡ₚ A ++ B ++ x :: C.
Proof. rewrite !List.app_assoc. apply Permutation_middle. Qed.

Lemma group_loop_rows (commands : list Command) :
  ∀ g, all_rows (group_loop commands g)
       ≡ₚ all_rows g ++ (row <$> filter listed commands).
Proof.
  induction commands as [|c rest IH]; intros g.
  - simpl. by rewrite app_nil_r.
  - cbn [group_loop]. rewrite filter_cons.
    destruct (decide (Short (Info c) = EmptyString)) as [Hs|Hs].
    { rewrite decide_False by (intros [? ?]; done). apply IH. }
    destruct (Hidden (Info c)) eqn:Hh.
    { rewrite decide_False by (intros [? ?]; congruence). apply IH. }
    rewrite decide_True by done. rewrite fmap_cons.
    destruct (Annotations (Info c) !! "group:core") as [x|];
      [|destruct (Annotations (Info c) !! "group:other") as [grp|]];
      rewrite IH; unfold all_rows; cbn [coreCommands otherCommands additionalCommands].
    + rewrite <- !List.app_assoc. apply Permutation_app_head. simpl.
      apply Permutation_move.
    + rewrite other_rows_append. rewrite <- !List.app_assoc.
      do 2 apply Permutation_app_head. simpl.
      apply (Permutation_middle _ _ (row c)).
    + by rewrite <- !List.app_assoc.
Qed.

Lemma other_rows_empty : other_rows ∅ = [].
Proof. unfold other_rows. by rewrite map_to_list_empty. Qed.

(** X7: grouping neither loses nor repeats a subcommand: the rows of the
    core, named and additional groups together are, up to order, the rows
    of the subcommands that have a short description and are not hidden. *)
Theorem grouped_rows (command : Command) :
  all_rows (grouped command) ≡ₚ row <$> filter listed (Commands command).
Proof.
  unfold grouped. cbn zeta.
  pose proof (group_loop_rows (Commands command) (MkGroups [] ∅ [])) as Hrows.
  unfold all_rows at 2 in Hrows. simpl in Hrows.
  rewrite other_rows_empty in Hrows. simpl in Hrows.
  rewrite <- Hrows.
  destruct (decide (length (coreCommands (group_loop (Commands command)
                                            (MkGroups [] ∅ []))) = 0
                    ∧ size (otherCommands (group_loop (Commands command)
                                             (MkGroups [] ∅ []))) = 0))
    as [[Hc Ho]|_]; [|done].
  unfold all_rows. cbn [coreCommands otherCommands additionalCommands].
  apply nil_length_inv in Hc. rewrite Hc.
  apply map_size_empty_inv in Ho. rewrite Ho, other_rows_empty. simpl.
  by rewrite app_nil_r.
Qed.

Lemma not_rows_unlisted (c : Command) :
  ¬ listed c →
  ¬ core_row c ∧ ¬ additional_row c ∧ ∀ grp, ¬ other_row grp c.
Proof.
  intros Hn. split; [|split]; [| |intros grp]; intros [? _]; done.
Qed.

Lemma group_loop_spec (commands : list Command) :
  ∀ g,
    coreCommands (group_loop commands g)
      = coreCommands g ++ (row <$> filter core_row commands) ∧
    additionalCommands (group_loop commands g)
      = additionalCommands g ++ (row <$> filter additional_row commands) ∧
    ∀ grp, otherCommands (group_loop commands g) !! grp =
      match row <$> filter (other_row grp) commands with
      | [] => otherCommands g !! grp
      | rows => Some (default [] (otherCommands g !! grp) ++ rows)
      end.
Proof.
  induction commands as [|c rest IH]; intros g.
  - simpl. by rewrite !app_nil_r.
  - assert (Hskip : ¬ listed c →
      coreCommands (group_loop rest g)
        = coreCommands g ++ (row <$> filter core_row (c :: rest)) ∧
      additionalCommands (group_loop rest g)
        = additionalCommands g ++ (row <$> filter additional_row (c :: rest)) ∧
      ∀ grp, otherCommands (group_loop rest g) !! grp =
        match row <$> filter (other_row grp) (c :: rest) with
        | [] => otherCommands g !! grp
        | rows => Some (default [] (otherCommands g !! grp) ++ rows)
        end).
    { intros Hn. destruct (not_rows_unlisted c Hn) as (H1 & H2 & H3).
      destruct (IH g) as (Hc & Ha & Ho).
      rewrite !filter_cons, decide_False, decide_False by done.
      split; [done|]. split; [done|]. intros grp.
      rewrite filter_cons, decide_False by apply H3. apply Ho. }
    cbn [group_loop].
    destruct (decide (Short (Info c) = EmptyString)) as [Hs|Hs].
    { apply Hskip. intros [? ?]; done. }
    destruct (Hidden (Info c)) eqn:Hh.
    { apply Hskip. intros [? ?]; congruence. }
    assert (Hl : listed c) by done.
    destruct (Annotations (Info c) !! "group:core") as [x|] eqn:Hcore;
      [|destruct (Annotations (Info c) !! "group:other") as [grp0|] eqn:Hother].
    + destruct (IH (MkGroups (coreCommands g ++ [row c]) (otherCommands g)
                      (additionalCommands g))) as (Hc & Ha & Ho).
      cbn [coreCommands otherCommands additionalCommands] in *.
      rewrite !filter_cons.
      rewrite (decide_True (P := core_row c)) by (split; [done | by rewrite Hcore]).
      rewrite (decide_False (P := additional_row c))
        by (intros (_ & Hx & _); congruence).
      split; [by rewrite Hc, <- List.app_assoc|]. split; [done|].
      intros grp. rewrite filter_cons.
      rewrite decide_False by (intros (_ & Hx & _); congruence). apply Ho.
    + destruct (IH (MkGroups (coreCommands g)
                      (append_other grp0 (row c) (otherCommands g))
                      (additionalCommands g))) as (Hc & Ha & Ho).
      cbn [coreCommands otherCommands additionalCommands] in *.
      rewrite !filter_cons.
      rewrite (decide_False (P := core_row c))
        by (intros (_ & Hx); rewrite Hcore in Hx; by destruct Hx).
      rewrite (decide_False (P := additional_row c))
        by (intros (_ & _ & Hx); congruence).
      split; [done|]. split; [done|].
      intros grp. rewrite filter_cons, Ho. unfold append_other.
      destruct (decide (grp = grp0)) as [->|Hne].
      * rewrite decide_True by done. rewrite lookup_insert_eq, fmap_cons. simpl.
        destruct (row <$> filter (other_row grp0) rest) as [|r rows]; [done|].
        by rewrite <- List.app_assoc.
      * rewrite decide_False by (intros (_ & _ & Hx); congruence).
        by rewrite lookup_insert_ne.
    + destruct (IH (MkGroups (coreCommands g) (otherCommands g)
                      (additionalCommands g ++ [row c]))) as (Hc & Ha & Ho).
      cbn [coreCommands otherCommands additionalCommands] in *.
      rewrite !filter_cons.
      rewrite (decide_False (P := core_row c))
        by (intros (_ & Hx); rewrite Hcore in Hx; by destruct Hx).
      rewrite (decide_True (P := additional_row c)) by done.
      split; [done|]. split; [by rewrite Ha, <- List.app_assoc|].
      intros grp. rewrite filter_cons.
      rewrite decide_False by (intros (_ & _ & Hx); congruence). apply Ho.
Qed.

Lemma filter_none (P : Command → Prop) `{∀ c, Decision (P c)}
    (l : list Command) :
  (∀ c, c ∈ l → ¬ P c) → filter P l = [].
Proof.
  induction l as [|c l IH]; [done|]. intros Hn. rewrite filter_cons.
  rewrite decide_False by (apply Hn; by left).
  apply IH. intros c' Hin. apply Hn. by right.
Qed.

Lemma filter_agree (P Q : Command → Prop)
    `{∀ c, Decision (P c)} `{∀ c, Decision (Q c)} (l : list Command) :
  (∀ c, c ∈ l → P c ↔ Q c) → filter P l = filter Q l.
Proof.
  induction l as [|c l IH]; [done|]. intros Hpq. rewrite !filter_cons.
  assert (IH' : filter P l = filter Q l).
  { apply IH. intros c' Hin. apply Hpq. by right. }
  destruct (decide (P c)) as [Hp|Hp].
  - rewrite decide_True by (apply Hpq; [by left | done]). by rewrite IH'.
  - rewrite decide_False; [done|]. intros Hq. apply Hp, Hpq; [by left | done].
Qed.

(** X8: which group a listed subcommand falls in. When no listed subcommand
    carries a [group:core] or [group:other] annotation, all of them are core
    commands, in order, and there are no additional commands. Otherwise the
    core commands are those annotated [group:core] (also when annotated
    [group:other] as well), the group [g] holds those annotated
    [group:other] with value [g] and not [group:core], and the additional
    commands are those with neither annotation, each in order. *)
Theorem grouped_groups (command : Command) :
  ((∀ c, c ∈ Commands command → listed c → additional_row c) →
     grouped command
     = MkGroups (row <$> filter listed (Commands command)) ∅ []) ∧
  ((∃ c, c ∈ Commands command ∧ listed c ∧ ¬ additional_row c) →
     coreCommands (grouped command)
       = row <$> filter core_row (Commands command) ∧
     additionalCommands (grouped command)
       = row <$> filter additional_row (Commands command) ∧
     ∀ grp, otherCommands (grouped command) !! grp =
       match row <$> filter (other_row grp) (Commands command) with
       | [] => None
       | rows => Some rows
       end).
Proof.
  destruct (group_loop_spec (Commands command) (MkGroups [] ∅ []))
    as (Hc & Ha & Ho).
  cbn [coreCommands otherCommands additionalCommands] in Hc, Ha, Ho.
  rewrite app_nil_l in Hc, Ha.
  assert (Ho' : ∀ grp,
    otherCommands (group_loop (Commands command) (MkGroups [] ∅ [])) !! grp =
      match row <$> filter (other_row grp) (Commands command) with
      | [] => None
      | rows => Some rows
      end).
  { intros grp. rewrite Ho, lookup_empty. simpl.
    by destruct (row <$> filter (other_row grp) (Commands command)). }
  clear Ho. split.
  - intros Hall.
    assert (Hcore : filter core_row (Commands command) = []).
    { apply filter_none. intros c Hin [Hl Hsome].
      destruct (Hall c Hin Hl) as (_ & Hnone & _). rewrite Hnone in Hsome.
      by destruct Hsome. }
    assert (Hother : otherCommands (group_loop (Commands command)
                                      (MkGroups [] ∅ [])) = ∅).
    { apply map_eq. intros grp. rewrite Ho', lookup_empty.
      rewrite (filter_none (other_row grp)); [done|].
      intros c Hin (Hl & _ & Hsome).
      destruct (Hall c Hin Hl) as (_ & _ & Hnone). congruence. }
    unfold grouped. cbn zeta. rewrite Hc, Hcore, Hother, Ha.
    rewrite decide_True by (split; [done | apply map_size_empty]).
    f_equal. f_equal. apply filter_agree. intros c Hin. split.
    + by intros [? _].
    + by apply Hall.
  - intros (c & Hin & Hl & Hnot).
    assert (Hkeep : ¬ (length (coreCommands (group_loop (Commands command)
                                               (MkGroups [] ∅ []))) = 0
                       ∧ size (otherCommands (group_loop (Commands command)
                                                (MkGroups [] ∅ []))) = 0)).
    { intros [Hlen Hsize].
      destruct (Annotations (Info c) !! "group:core") as [x|] eqn:Hcore.
      - assert (Hcin : c ∈ filter core_row (Commands command)).
        { apply list_elem_of_filter. split; [|done].
          split; [done | by rewrite Hcore]. }
        rewrite Hc in Hlen. apply nil_length_inv, fmap_nil_inv in Hlen.
        rewrite Hlen in Hcin. by apply elem_of_nil in Hcin.
      - destruct (Annotations (Info c) !! "group:other") as [grp|] eqn:Hoth.
        + assert (Hcin : c ∈ filter (other_row grp) (Commands command)).
          { apply list_elem_of_filter. done. }
          apply map_size_empty_inv in Hsize.
          specialize (Ho' grp). rewrite Hsize, lookup_empty in Ho'.
          destruct (filter (other_row grp) (Commands command)) as [|c0 l];
            [by apply elem_of_nil in Hcin | done].
        + by destruct Hnot. }
    unfold grouped. cbn zeta. rewrite decide_False by exact Hkeep. done.
Qed.

Lemma grouped_groups_witness :
  grouped exampleRoot
  = MkGroups (row <$> filter listed (Commands exampleRoot)) ∅ [].
Proof.
  apply (proj1 (grouped_groups exampleRoot)).
  intros c Hin Hl.
  apply elem_of_cons in Hin as [->|Hin]; [done|].
  apply elem_of_cons in Hin as [->|Hin]; [by destruct Hl|].
  by apply elem_of_nil in Hin.
Defined.

(** ** Help never rewrites the command *)


(** ** Streams *)




(** ** The reference *)

Lemma Info_visible_tree (c : Command) : Info (visible_tree c) = Info c.
Proof. by destruct c. Qed.

Lemma cmdRef_unfold (info : CmdInfo) (commands : list Command) (depth : nat) :
  cmdRef (Cmd info commands) depth =
    String.concat EmptyString (replicate depth "#")
      +:+ " `" +:+ UseLine info +:+ "`" +:+ nl +:+ nl
    +:+ Short info +:+ nl +:+ nl
    +:+ (if decide (FlagUsages info ≠ EmptyString)
         then "```" +:+ nl +:+ dedent (FlagUsages info) +:+ "````" +:+ nl +:+ nl
         else EmptyString)
    +:+ subcommand_refs depth commands.
Proof.
  cbn [cmdRef]. do 10 f_equal.
  induction commands as [|c rest IH]; [done|].
  cbn [subcommand_refs]. by rewrite <- IH.
Qed.

Lemma visible_tree_unfold (info : CmdInfo) (commands : list Command) :
  visible_tree (Cmd info commands) = Cmd info (visible_list commands).
Proof.
  reflexivity.
Qed.

Lemma reference_rows_refs (commands : list Command) :
  reference_rows commands = subcommand_refs 1 commands.
Proof.
  induction commands as [|c rest IH]; [done|].
  cbn [reference_rows subcommand_refs]. by rewrite IH.
Qed.

Lemma subcommand_refs_visible (depth : nat) (commands : list Command) :
  Forall (fun c => ∀ d, cmdRef (visible_tree c) d = cmdRef c d) commands →
  subcommand_refs depth (visible_list commands) = subcommand_refs depth commands.
Proof.
  induction 1 as [|c rest Hc _ IH]; [done|].
  cbn [visible_list subcommand_refs]. destruct (Hidden (Info c)) eqn:Hh.
  - exact IH.
  - cbn [subcommand_refs]. by rewrite Info_visible_tree, Hh, Hc, IH.
Qed.

Lemma cmdRef_visible_tree (cmd : Command) :
  ∀ depth, cmdRef (visible_tree cmd) depth = cmdRef cmd depth.
Proof.
  induction cmd as [info commands IH] using Command_tree_ind. intros depth.
  rewrite visible_tree_unfold, !cmdRef_unfold.
  by rewrite subcommand_refs_visible.
Qed.

(** X10: the reference text depends on the visible part of the command
    tree only: removing every hidden subcommand, with all that is below
    it, changes neither [cmdRef] nor [referenceLong]. *)
Theorem reference_ignores_hidden (cmd : Command) :
  referenceLong (visible_tree cmd) = referenceLong cmd ∧
  ∀ depth, cmdRef (visible_tree cmd) depth = cmdRef cmd depth.
Proof.
  split; [|apply cmdRef_visible_tree].
  destruct cmd as [info commands]. rewrite visible_tree_unfold.
  unfold referenceLong. cbn [Info Commands]. rewrite !reference_rows_refs.
  rewrite subcommand_refs_visible; [done|].
  apply Forall_forall. intros c _. apply cmdRef_visible_tree.
Qed.

Example referenceLong_example :
  referenceLong exampleRoot =
    "# salt reference" +:+ nl +:+ nl
    +:+ "## `salt config`" +:+ nl +:+ nl +:+ "Manage config" +:+ nl +:+ nl.
Proof. reflexivity. Qed.

End CmdxProps.

(** * Further properties of package config *)
Module ConfigExtra.
Import Config ConfigExamples ConfigProps.

Section LoadMore.

Variable coerce : basic → value → option value.


(** X14: [Load] never changes the settings of its loader: whatever the
    target, the files and the environment, the file name, the search
    paths, the file type, the environment prefix and the key replacer are
    after the call what they were before. *)
Theorem Load_keeps_settings (l : Loader) (w : World) (config : param) :
  settings (lr_loader (Load coerce l w config)) = settings l.
Proof.
  destruct (target_fields config) as [fs|] eqn:Ht.
  - apply target_fields_ptr in Ht as ->.
    destruct (configFile_cases (v l) w)
      as [Hc | [(path & kv & Hc & Hf) | (path & Hc & Hf)]].
    + destruct (ReadInConfig_not_found (AutomaticEnv (v l)) w Hc) as [io Hr].
      by destruct (Load_continue coerce l w fs _ _ io Hr) as (e & _ & ->).
    + destruct (ReadInConfig_found (AutomaticEnv (v l)) w path kv Hc Hf)
        as [io Hr].
      by destruct (Load_continue coerce l w fs _ _ io Hr) as (e & _ & ->).
    + by destruct (Load_parse_failure coerce l w fs path Hc Hf) as [io ->].
  - by destruct (Load_invalid coerce l w config Ht) as (k & b & ->).
Qed.

Lemma searchInPaths_io (w : World) (name : string) (paths : list string) :
  ∀ x, LookupEnv x ∉ (searchInPaths w name paths).1.
Proof.
  induction paths as [|dir rest IH]; intros x; simpl.
  - apply not_elem_of_nil.
  - destruct (files w !! joinPath dir name).
    + simpl. intros Hin. apply list_elem_of_singleton in Hin. discriminate.
    + specialize (IH x).
      destruct (searchInPaths w name rest) as [io found]. simpl in *.
      intros Hin. apply elem_of_cons in Hin as [?|?]; [discriminate | done].
Qed.

(** X15: on a configuration file that does not parse, [Load] stops before
    anything else happens: no Key Path is registered, the File source is
    as before, no environment variable is looked up, and the target is
    left as it was, without the defaults. *)
Theorem Load_malformed_stops_early (l : Loader) (w : World) (fs : fields)
    (path : string) :
  configFile (v l) w = Some path →
  files w !! path = Some Malformed →
  env (v (lr_loader (Load coerce l w (ptr_to fs)))) = env (v l) ∧
  config (v (lr_loader (Load coerce l w (ptr_to fs)))) = config (v l) ∧
  (∀ x, LookupEnv x ∉ lr_io (Load coerce l w (ptr_to fs))) ∧
  lr_target (Load coerce l w (ptr_to fs)) = ptr_to fs.
Proof.
  intros Hc Hf. unfold Load. rewrite verify_valid.
  pose proof (searchInPaths_io w (configFileName (AutomaticEnv (v l)))
                (configPaths (AutomaticEnv (v l)))) as Hio.
  unfold ReadInConfig. unfold configFile in Hc.
  change (configFileName (AutomaticEnv (v l))) with (configFileName (v l)) in *.
  change (configPaths (AutomaticEnv (v l))) with (configPaths (v l)) in *.
  destruct (searchInPaths w (configFileName (v l)) (configPaths (v l)))
    as [io found].
  simpl in Hc, Hio. subst found. rewrite Hf. cbn.
  split; [done|]. split; [done|]. split; [|done].
  intros x Hin. apply elem_of_app in Hin as [Hin|Hin]; [by apply (Hio x)|].
  apply list_elem_of_singleton in Hin. discriminate.
Qed.

(** X16: [Load] writes current values only: the Key Paths of the target,
    the kinds of its fields and their declared defaults are after every
    call on a valid target what they were before. *)
Theorem Load_keeps_shape (l : Loader) (w : World) (fs : fields) :
  ∃ fs', lr_target (Load coerce l w (ptr_to fs)) = ptr_to fs' ∧
    (fun kl => (kl.1, lkind kl.2, ldefault kl.2)) <$> leaves fs'
    = (fun kl => (kl.1, lkind kl.2, ldefault kl.2)) <$> leaves fs.
Proof.
  assert (Hleaf : ∀ merged (kl : string * leaf),
    (fun kl => (kl.1, lkind kl.2, ldefault kl.2))
      (decoded coerce merged (prod_map id apply_default kl))
    = (kl.1, lkind kl.2, ldefault kl.2)).
  { intros merged [k lf]. unfold decoded, unmarshal_leaf, apply_default. simpl.
    destruct (ldefault lf) as [d|] eqn:Hd; simpl;
      destruct (merged !! k) as [raw|]; simpl;
      try destruct (coerce (lkind lf) raw); simpl; by rewrite ?Hd. }
  assert (Hcont : ∀ rerr v2 io,
    ReadInConfig (AutomaticEnv (v l)) w = (rerr, v2, io) →
    (∀ q, rerr ≠ Some (ParseFailure q)) →
    ∃ fs', lr_target (Load coerce l w (ptr_to fs)) = ptr_to fs' ∧
      (fun kl => (kl.1, lkind kl.2, ldefault kl.2)) <$> leaves fs'
      = (fun kl => (kl.1, lkind kl.2, ldefault kl.2)) <$> leaves fs).
  { intros rerr v2 io Hr Hne.
    destruct (Load_continue coerce l w fs _ _ io Hr Hne) as (e & _ & ->).
    eexists. split; [done|].
    rewrite leaves_loaded, <- list_fmap_compose.
    apply list_fmap_ext. intros i kl _. apply Hleaf. }
  destruct (configFile_cases (v l) w)
    as [Hc | [(path & kv & Hc & Hf) | (path & Hc & Hf)]].
  - destruct (ReadInConfig_not_found (AutomaticEnv (v l)) w Hc) as [io Hr].
    by eapply Hcont.
  - destruct (ReadInConfig_found (AutomaticEnv (v l)) w path kv Hc Hf) as [io Hr].
    by eapply Hcont.
  - destruct (Load_parse_failure coerce l w fs path Hc Hf) as [io ->].
    by exists fs.
Qed.

Lemma unmarshal_ext_mut (m m' : gmap string value) :
  (∀ (n : node) (key : string),
     (∀ k lf, (k, lf) ∈ leaves_node key n → m !! k = m' !! k) →
     unmarshal_node coerce m key n = unmarshal_node coerce m' key n) ∧
  (∀ (fs : fields) (top : bool) (prefix : string),
     (∀ k lf, (k, lf) ∈ leaves_fields top prefix fs → m !! k = m' !! k) →
     unmarshal_fields coerce m top prefix fs
     = unmarshal_fields coerce m' top prefix fs).
Proof.
  set (P := fun n => ∀ key : string,
     (∀ k lf, (k, lf) ∈ leaves_node key n → m !! k = m' !! k) →
     unmarshal_node coerce m key n = unmarshal_node coerce m' key n).
  set (P0 := fun fs => ∀ (top : bool) (prefix : string),
     (∀ k lf, (k, lf) ∈ leaves_fields top prefix fs → m !! k = m' !! k) →
     unmarshal_fields coerce m top prefix fs
     = unmarshal_fields coerce m' top prefix fs).
  assert (Hleaf : ∀ lf, P (Leaf lf)).
  { intros lf key H. simpl. unfold unmarshal_leaf.
    rewrite (H key lf); [done|]. simpl. by apply list_elem_of_singleton. }
  assert (Hstruct : ∀ fs, P0 fs → P (Struct fs)).
  { intros fs IH key H. simpl. by rewrite IH. }
  assert (Hcons : ∀ name n, P n → ∀ rest, P0 rest → P0 (FCons name n rest)).
  { intros name n IHn rest IHrest top prefix H. simpl in *.
    rewrite IHn, IHrest; [done| |].
    - intros k lf Hin. apply (H k lf), elem_of_app. by right.
    - intros k lf Hin. apply (H k lf), elem_of_app. by left. }
  split; [apply (node_mut P P0) | apply (fields_mut P P0)]; done.
Qed.

(** X17: [Load] sees the file and the environment only through the Key
    Paths of the target: when two worlds both hold a configuration file
    that parses and agree, for every Key Path of the target, on the file's
    value and on the value of its environment variable, [Load] returns the
    same error and leaves the same target in both, whatever else the files
    and the environments hold. *)
Theorem Load_ignores_other_keys (l : Loader) (w w' : World) (fs : fields)
    (path path' : string) (kv kv' : gmap string value) :
  configFile (v l) w = Some path → files w !! path = Some (WellFormed kv) →
  configFile (v l) w' = Some path' → files w' !! path' = Some (WellFormed kv') →
  (∀ p, p ∈ (leaves fs).*1 →
        kv !! p = kv' !! p ∧
        environ w !! envName (v l) p = environ w' !! envName (v l) p) →
  lr_err (Load coerce l w (ptr_to fs)) = lr_err (Load coerce l w' (ptr_to fs)) ∧
  lr_target (Load coerce l w (ptr_to fs))
    = lr_target (Load coerce l w' (ptr_to fs)).
Proof.
  intros Hc Hf Hc' Hf' Hagree.
  destruct (ReadInConfig_found (AutomaticEnv (v l)) w path kv Hc Hf) as [io Hr].
  destruct (ReadInConfig_found (AutomaticEnv (v l)) w' path' kv' Hc' Hf')
    as [io' Hr'].
  destruct (Load_continue coerce l w fs _ _ io Hr) as (e & He & ->); [done|].
  destruct (Load_continue coerce l w' fs _ _ io' Hr') as (e' & He' & ->); [done|].
  cbn [lr_err lr_target].
  assert (Hee : e' = e).
  { apply map_eq. intros k. by rewrite He, He'. }
  subst e'.
  destruct (unmarshal_ext_mut
              (Merge (set_env e (set_config kv (AutomaticEnv (v l)))) w)
              (Merge (set_env e (set_config kv' (AutomaticEnv (v l)))) w'))
    as [_ Hext].
  rewrite (Hext (defaults_fields fs) true ""); [done|].
  intros k lf Hin. fold (leaves (defaults_fields fs)) in Hin.
  rewrite leaves_defaults in Hin.
  apply list_elem_of_fmap in Hin as ([k0 lf0] & Heq & Hin).
  simpl in Heq. injection Heq as -> ->.
  assert (Hk : k0 ∈ (leaves fs).*1).
  { apply list_elem_of_fmap. exists (k0, lf0). done. }
  rewrite (Merge_registered e _ w _ k0 He Hk).
  rewrite (Merge_registered e _ w' _ k0 He' Hk).
  change (envName (set_config kv (AutomaticEnv (v l))) k0) with (envName (v l) k0).
  change (envName (set_config kv' (AutomaticEnv (v l))) k0) with (envName (v l) k0).
  destruct (Hagree k0 Hk) as [Hkv Henv]. rewrite Henv.
  destruct (environ w' !! envName (v l) k0); [done|]. exact Hkv.
Qed.

End LoadMore.


Lemma Load_malformed_stops_early_witness :
  env (v (lr_loader (Load coerce_strict exampleLoader worldMalformed
                       (ptr_to exampleSchema)))) = env (v exampleLoader) ∧
  config (v (lr_loader (Load coerce_strict exampleLoader worldMalformed
                          (ptr_to exampleSchema)))) = config (v exampleLoader) ∧
  (∀ x, LookupEnv x ∉ lr_io (Load coerce_strict exampleLoader worldMalformed
                               (ptr_to exampleSchema))) ∧
  lr_target (Load coerce_strict exampleLoader worldMalformed (ptr_to exampleSchema))
    = ptr_to exampleSchema.
Proof.
  apply (Load_malformed_stops_early coerce_strict exampleLoader worldMalformed
           exampleSchema "./config.yaml"); reflexivity.
Defined.

Lemma Load_ignores_other_keys_witness :
  lr_err (Load coerce_strict exampleLoader worldFile (ptr_to exampleSchema))
    = lr_err (Load coerce_strict exampleLoader worldFileMore (ptr_to exampleSchema)) ∧
  lr_target (Load coerce_strict exampleLoader worldFile (ptr_to exampleSchema))
    = lr_target (Load coerce_strict exampleLoader worldFileMore
                   (ptr_to exampleSchema)).
Proof.
  apply (Load_ignores_other_keys coerce_strict exampleLoader worldFile
           worldFileMore exampleSchema "./config.yaml" "./config.yaml"
           {[ "server.port" := Scalar "7070" ]}
           (<[ "server.host" := Scalar "localhost" ]>
              {[ "server.port" := Scalar "7070" ]})); try reflexivity.
  intros p Hin. vm_compute in Hin.
  apply list_elem_of_singleton in Hin as ->. split; reflexivity.
Defined.

(** ** Search paths *)

Lemma WithConfigPath_fold (ps : list string) :
  ∀ l, settings (foldl (fun l option => option l) l (WithConfigPath <$> ps))
       = (configName (v l), configPaths (v l) ++ ps, configType (v l),
          envPrefix (v l), envKeyReplacer (v l)).
Proof.
  induction ps as [|p ps IH]; intros l.
  - simpl. by rewrite app_nil_r.
  - simpl. rewrite IH. simpl. by rewrite <- List.app_assoc.
Qed.

(** X18: the directories given by [WithConfigPath] are searched after
    ["./"], in the order given, so a configuration file in ["./"] is the one
    found, whatever the other search paths hold. *)
Theorem default_path_searched_first (ps : list string) (w : World) :
  is_Some (files w !! "./config.yaml") →
  configPaths (v (NewLoader (WithConfigPath <$> ps))) = "./" :: ps ∧
  configFile (v (NewLoader (WithConfigPath <$> ps))) w = Some "./config.yaml".
Proof.
  intros [f Hf].
  pose proof (WithConfigPath_fold ps {| v := getViperWithDefaults |}) as Hs.
  unfold settings in Hs. injection Hs as Hname Hpaths Htype _ _.
  fold (NewLoader (WithConfigPath <$> ps)) in Hname, Hpaths, Htype.
  split; [exact Hpaths|].
  unfold configFile, configFileName. rewrite Hname, Hpaths, Htype.
  simpl. change (joinPath "./" ("config" +:+ "." +:+ "yaml")) with "./config.yaml".
  by rewrite Hf.
Qed.

Lemma default_path_searched_first_witness :
  configPaths (v (NewLoader (WithConfigPath <$> ["/etc/salt"]))) = ["./"; "/etc/salt"] ∧
  configFile (v (NewLoader (WithConfigPath <$> ["/etc/salt"]))) worldFile
    = Some "./config.yaml".
Proof.
  apply (default_path_searched_first ["/etc/salt"] worldFile).
  eexists. reflexivity.
Defined.

End ConfigExtra.
